(** * Dictionary: a string-to-string map on a CRC-keyed binary tree

    Shallow embedding of [src/Dictionary.h] (class [Dictionary]) and the
    properties of its insert / search / remove / size / equality
    operations. *)

From Stdlib Require Import ZArith String Ascii List Lia.
From stdpp Require Import base list gmap strings.

Local Open Scope Z_scope.

(** ** The hash: [Dictionary::Dictionary] (table) and [Dictionary::crc]

    The build has [_DICT_CRC64_] commented out, so [uintNN_t] is the
    32-bit unsigned type and the [#else] branches are the live ones. *)

Module CRC.

(** One round of the inner loop of the constructor:
    [r = (r & 1 ? 0 : 0xEDB88320) ^ r >> 1]. *)
Definition round (r : Z) : Z :=
  Z.lxor (if Z.eqb (Z.land r 1) 0 then 0xEDB88320 else 0) (Z.shiftr r 1).

(** [table[i] = r ^ 0xFF000000] after eight rounds starting from [r = i]. *)
Definition table_entry (i : Z) : Z :=
  Z.lxor (Nat.iter 8 round i) 0xFF000000.

(** The member [table[0x100]]: the constructor fills it and nothing writes
    it afterwards, so every instance carries this same value. *)
Definition table : list Z :=
  Eval vm_compute in List.map (fun i => table_entry (Z.of_nat i)) (seq 0 256).

Definition byte_of (c : ascii) : Z := Z.of_N (N_of_ascii c).

(** Loop body of [crc]:
    [crc = table[(uint8_t)crc ^ data[i]] ^ crc >> 8]. *)
Definition step (crc : Z) (c : ascii) : Z :=
  Z.lxor (nth (Z.to_nat (Z.lxor (Z.land crc 0xFF) (byte_of c))) table 0)
         (Z.shiftr crc 8).

Fixpoint crc_from (crc : Z) (data : string) : Z :=
  match data with
  | EmptyString => crc
  | String c rest => crc_from (step crc c) rest
  end.

(** [crc(keystr.c_str(), keystr.length())], starting from [crc = 0]. *)
Definition crc (data : string) : Z := crc_from 0 data.

End CRC.

Definition crc := CRC.crc.

(** ** The data model *)

(** Addresses of [node] objects as returned by [new node]. *)
Definition addr := nat.

(** A [node*]: [NULL], or the node it points to.  A node is owned by
    exactly one link (its parent's [left]/[right], or [iRoot]), so the
    store reachable from a pointer is a tree; each node carries its own
    address [self], which is what the index array [Q] refers to.
    Fields as used by the source: [key], [keystr], [valstr], [left],
    [right]. *)
Inductive node_ptr : Type :=
| NULL
| Node (self : addr) (key : Z) (keystr valstr : string) (left right : node_ptr).

(** Modelled from the spec: class [NodeArray] of [NodeArray.h], which is
    not part of the sources.  Section 4.2: [append] adds a reference at
    the end, [remove] removes the given reference if present and is a
    no-op otherwise, [get] is empty out of bounds, [count] is the number
    of references; the constructor takes the initial capacity. *)
Module NodeArray.

Record t : Type := mk { init_size : nat; items : list addr }.

Definition new (n : nat) : t := mk n [].

Definition append (a : addr) (q : t) : t := mk (init_size q) (items q ++ [a]).

Fixpoint remove_first (a : addr) (l : list addr) : list addr :=
  match l with
  | [] => []
  | x :: l' => if Nat.eqb x a then l' else x :: remove_first a l'
  end.

Definition remove (a : addr) (q : t) : t :=
  mk (init_size q) (remove_first a (items q)).

Definition get (q : t) (i : nat) : option addr := items q !! i.

Definition count (q : t) : nat := length (items q).

End NodeArray.

(** The free store as far as [new node] and [delete] go: [next] is the
    address the next [new node] returns (addresses are not reused while
    their node is live), [freed] logs the addresses passed to [delete]. *)
Record Heap : Type := mkHeap { next : addr; freed : list addr }.

(** The members of [class Dictionary] ([table] is the constant
    [CRC.table]). *)
Record Dictionary : Type := mkDictionary {
  iRoot : node_ptr;
  Q : NodeArray.t;
  initSize : nat;
  heap : Heap
}.

Definition set_iRoot (p : node_ptr) (d : Dictionary) : Dictionary :=
  mkDictionary p (Q d) (initSize d) (heap d).
Definition set_Q (q : NodeArray.t) (d : Dictionary) : Dictionary :=
  mkDictionary (iRoot d) q (initSize d) (heap d).
Definition set_heap (h : Heap) (d : Dictionary) : Dictionary :=
  mkDictionary (iRoot d) (Q d) (initSize d) h.

(** ** Methods as state transformers *)

Definition St (S A : Type) : Type := S -> A * S.

Definition ret {S A} (x : A) : St S A := fun s => (x, s).
Definition bind {S A B} (m : St S A) (f : A -> St S B) : St S B :=
  fun s => let (x, s') := m s in f x s'.
Definition gets {S A} (f : S -> A) : St S A := fun s => (f s, s).
Definition modify {S} (f : S -> S) : St S unit := fun s => (tt, f s).

Notation "'let*' x ':=' m 'in' k" := (bind m (fun x => k))
  (at level 10, x name, m at level 100, k at level 200).

(** A method of [Dictionary]: runs on [*this]. *)
Definition method (A : Type) : Type := St Dictionary A.

Definition eval {S A} (m : St S A) (s : S) : A := fst (m s).
Definition exec {S A} (m : St S A) (s : S) : S := snd (m s).

(** [new node] and [delete p]. *)
Definition alloc : method addr :=
  fun d => (next (heap d), set_heap (mkHeap (S (next (heap d))) (freed (heap d))) d).
Definition free (a : addr) : method unit :=
  modify (fun d => set_heap (mkHeap (next (heap d)) (a :: freed (heap d))) d).

Definition Q_append (a : addr) : method unit :=
  modify (fun d => set_Q (NodeArray.append a (Q d)) d).
Definition Q_remove (a : addr) : method unit :=
  modify (fun d => set_Q (NodeArray.remove a (Q d)) d).

(** [Dictionary::Dictionary(init_size)], on an empty free store. *)
Definition Dictionary_new (init_size : nat) : Dictionary :=
  mkDictionary NULL (NodeArray.new init_size) init_size (mkHeap 0%nat []).

(** ** Insertion *)

(** The block repeated at the four creation sites:
    [p = new node; p->key = key; p->keystr = *keystr; p->valstr = *valstr;
     p->left = NULL; p->right = NULL; Q->append(p)]. *)
Definition create (key : Z) (keystr valstr : string) : method node_ptr :=
  let* a := alloc in
  let* _ := Q_append a in
  ret (Node a key keystr valstr NULL NULL).

(** [Dictionary::insert(uintNN_t key, String* keystr, String* valstr, node* leaf)].
    The source calls it on a non-null [leaf] only. *)
Fixpoint insert_node (key : Z) (keystr valstr : string) (leaf : node_ptr)
  : method node_ptr :=
  match leaf with
  | NULL => ret NULL
  | Node a k ks vs l r =>
      if key <? k then
        match l with
        | NULL => let* n := create key keystr valstr in ret (Node a k ks vs n r)
        | Node _ _ _ _ _ _ =>
            let* l' := insert_node key keystr valstr l in ret (Node a k ks vs l' r)
        end
      else if key >? k then
        match r with
        | NULL => let* n := create key keystr valstr in ret (Node a k ks vs l n)
        | Node _ _ _ _ _ _ =>
            let* r' := insert_node key keystr valstr r in ret (Node a k ks vs l r')
        end
      else if key =? k then
        if String.eqb ks keystr then ret (Node a k ks valstr l r)
        else
          match r with
          | NULL => let* n := create key keystr valstr in ret (Node a k ks vs l n)
          | Node _ _ _ _ _ _ =>
              let* r' := insert_node key keystr valstr r in ret (Node a k ks vs l r')
          end
      else ret leaf
  end.

(** [Dictionary::insert(String keystr, String valstr)]. *)
Definition insert (keystr valstr : string) : method unit :=
  let key := crc keystr in
  let* root := gets iRoot in
  match root with
  | Node _ _ _ _ _ _ =>
      let* root' := insert_node key keystr valstr root in
      modify (set_iRoot root')
  | NULL =>
      let* n := create key keystr valstr in
      modify (set_iRoot n)
  end.

(** ** Search *)

(** [Dictionary::search(uintNN_t key, node* leaf, String* keystr)]. *)
Fixpoint search_node (key : Z) (leaf : node_ptr) (keystr : string) : node_ptr :=
  match leaf with
  | NULL => NULL
  | Node a k ks vs l r =>
      if (key =? k) && String.eqb ks keystr then leaf
      else if key <? k then search_node key l keystr
      else search_node key r keystr
  end.

(** [p->valstr] for a non-null [p], [String("")] otherwise. *)
Definition valstr_or_empty (p : node_ptr) : string :=
  match p with
  | Node _ _ _ vs _ _ => vs
  | NULL => EmptyString
  end.

(** [Dictionary::search(String keystr)], also [operator[](String)]. *)
Definition search (keystr : string) : method string :=
  let key := crc keystr in
  let* root := gets iRoot in
  ret (valstr_or_empty (search_node key root keystr)).

(** [Dictionary::operator()(String keystr)]. *)
Definition contains (keystr : string) : method bool :=
  let key := crc keystr in
  let* root := gets iRoot in
  match search_node key root keystr with
  | Node _ _ _ _ _ _ => ret true
  | NULL => ret false
  end.

(** ** Removal *)

(** [Dictionary::minValueNode]: follow [left] links while there is one. *)
Fixpoint minValueNode (n : node_ptr) : node_ptr :=
  match n with
  | NULL => NULL
  | Node _ _ _ _ l _ =>
      match l with
      | NULL => n
      | Node _ _ _ _ _ _ => minValueNode l
      end
  end.

(** [Dictionary::deleteNode(node* root, uintNN_t key, String* keystr)]:
    returns the new root of the subtree. *)
Fixpoint deleteNode (root : node_ptr) (key : Z) (keystr : string)
  : method node_ptr :=
  match root with
  | NULL => ret NULL
  | Node a k ks vs l r =>
      if key <? k then
        let* l' := deleteNode l key keystr in ret (Node a k ks vs l' r)
      else if key >? k then
        let* r' := deleteNode r key keystr in ret (Node a k ks vs l r')
      else if String.eqb ks keystr then
        match l, r with
        | NULL, _ =>
            let* _ := Q_remove a in
            let* _ := free a in
            ret r
        | Node _ _ _ _ _ _, NULL =>
            let* _ := Q_remove a in
            let* _ := free a in
            ret l
        | Node _ _ _ _ _ _, Node _ _ _ _ _ _ =>
            match minValueNode r with
            | Node _ tk tks tvs _ _ =>
                let* r' := deleteNode r tk tks in ret (Node a tk tks tvs l r')
            | NULL => ret root
            end
        end
      else
        let* r' := deleteNode r key keystr in ret (Node a k ks vs l r')
  end.

(** [Dictionary::remove(String keystr)]. *)
Definition remove (keystr : string) : method unit :=
  let key := crc keystr in
  let* root := gets iRoot in
  match search_node key root keystr with
  | Node _ pkey _ _ _ _ =>
      let* root' := deleteNode root pkey keystr in
      modify (set_iRoot root')
  | NULL => ret tt
  end.

(** ** Positional access, count and size *)

(** Dereferencing a pointer held by [Q]: the node of the tree that lives
    at address [a]; [NULL] when the tree has no such node. *)
Fixpoint node_at (a : addr) (t : node_ptr) : node_ptr :=
  match t with
  | NULL => NULL
  | Node b _ _ _ l r =>
      if Nat.eqb b a then t
      else match node_at a l with
           | NULL => node_at a r
           | Node _ _ _ _ _ _ as p => p
           end
  end.

Definition keystr_or_empty (p : node_ptr) : string :=
  match p with
  | Node _ _ ks _ _ _ => ks
  | NULL => EmptyString
  end.

(** The read [Q->operator[](i)] of [key] and [value], dereferenced. *)
Definition Q_get (i : nat) : method node_ptr :=
  let* q := gets Q in
  match NodeArray.get q i with
  | Some a => let* root := gets iRoot in ret (node_at a root)
  | None => ret NULL
  end.

(** [Dictionary::key(unsigned int i)], also [operator()(unsigned int)]. *)
Definition key (i : nat) : method string :=
  let* p := Q_get i in ret (keystr_or_empty p).

(** [Dictionary::value(unsigned int i)], also [operator[](unsigned int)]. *)
Definition value (i : nat) : method string :=
  let* p := Q_get i in ret (valstr_or_empty p).

(** [Dictionary::count()]. *)
Definition count : method nat :=
  let* q := gets Q in ret (NodeArray.count q).

(** The loop of [Dictionary::size()], [n] iterations left, at index [i].
    The sum is of [size_t]; it cannot wrap, because every counted byte is
    a byte of a live string buffer. *)
Fixpoint size_loop (n i sz : nat) : method nat :=
  match n with
  | O => ret sz
  | S n' =>
      let* k := key i in
      let* v := value i in
      size_loop n' (S i) (sz + String.length k + String.length v + 2)%nat
  end.

(** [Dictionary::size()]. *)
Definition size : method nat :=
  let* ct := count in size_loop ct 0%nat 0%nat.

(** ** Equality *)

(** A call on [*this] and a call on the argument [b] of [operator==]. *)
Definition this {A} (m : method A) : St (Dictionary * Dictionary) A :=
  fun s => let (x, a') := m (fst s) in (x, (a', snd s)).
Definition other {A} (m : method A) : St (Dictionary * Dictionary) A :=
  fun s => let (x, b') := m (snd s) in (x, (fst s, b')).

(** The loop of [operator==]: [if (value(i) != b[key(i)]) return false]. *)
Fixpoint eq_loop (n i : nat) : St (Dictionary * Dictionary) bool :=
  match n with
  | O => ret true
  | S n' =>
      let* v := this (value i) in
      let* k := this (key i) in
      let* bv := other (search k) in
      if String.eqb v bv then eq_loop n' (S i) else ret false
  end.

(** [Dictionary::operator==(Dictionary& b)]; the state is the pair
    ([*this], [b]). *)
Definition equals : St (Dictionary * Dictionary) bool :=
  let* sb := other size in
  let* sa := this size in
  if negb (Nat.eqb sb sa) then ret false
  else
    let* cb := other count in
    let* ca := this count in
    if negb (Nat.eqb cb ca) then ret false
    else
      let* ct := this count in eq_loop ct 0%nat.

(** ** Reset *)

(** [Dictionary::destroy_tree]: post-order [delete] of every node. *)
Fixpoint destroy_tree (leaf : node_ptr) : method unit :=
  match leaf with
  | NULL => ret tt
  | Node a _ _ _ l r =>
      let* _ := destroy_tree l in
      let* _ := destroy_tree r in
      free a
  end.

(** [Dictionary::destroy()]: [destroy_tree(iRoot); delete Q;
    Q = new NodeArray(initSize)].  The member [iRoot] is not assigned. *)
Definition destroy : method unit :=
  let* root := gets iRoot in
  let* _ := destroy_tree root in
  let* n := gets initSize in
  modify (set_Q (NodeArray.new n)).

(** ** Operation sequences *)

Inductive op : Type :=
| Insert (keystr valstr : string)
| Remove (keystr : string).

Definition op_key (o : op) : string :=
  match o with
  | Insert k _ => k
  | Remove k => k
  end.

Definition step (d : Dictionary) (o : op) : Dictionary :=
  match o with
  | Insert k v => exec (insert k v) d
  | Remove k => exec (remove k) d
  end.

(** The state after running [ops], in order, from [d]. *)
Definition run (ops : list op) (d : Dictionary) : Dictionary :=
  fold_left step ops d.

(** ** Views of a tree used in the statements *)

(** One node as seen from outside: its address and its three data fields. *)
Record cell : Type := mkCell {
  c_addr : addr;
  c_key : Z;
  c_keystr : string;
  c_valstr : string
}.

(** The nodes reachable from a pointer, left to right. *)
Fixpoint cells (t : node_ptr) : list cell :=
  match t with
  | NULL => []
  | Node a k ks vs l r => cells l ++ mkCell a k ks vs :: cells r
  end.

Definition addrs (t : node_ptr) : list addr := c_addr <$> cells t.
Definition hkeys (t : node_ptr) : list Z := c_key <$> cells t.
Definition keystrs (t : node_ptr) : list string := c_keystr <$> cells t.

(** The key/value pairs stored in a tree. *)
Definition entry_of (c : cell) : string * string := (c_keystr c, c_valstr c).
Definition entries (t : node_ptr) : list (string * string) := entry_of <$> cells t.

(** The data fields of the nodes, without their addresses. *)
Definition content (c : cell) : Z * string * string :=
  (c_key c, c_keystr c, c_valstr c).
Definition contents (t : node_ptr) : list (Z * string * string) :=
  content <$> cells t.

(** What [search_node] finds, as a value. *)
Definition lookup (t : node_ptr) (key : Z) (keystr : string) : option string :=
  match search_node key t keystr with
  | Node _ _ _ vs _ _ => Some vs
  | NULL => None
  end.

(** The non-null pointers reachable from a pointer, itself included. *)
Fixpoint subtrees (t : node_ptr) : list node_ptr :=
  match t with
  | NULL => []
  | Node _ _ _ _ l r => t :: subtrees l ++ subtrees r
  end.

(** The tree with every [valstr] blanked: shape, addresses, hash keys and
    key strings. *)
Fixpoint skeleton (t : node_ptr) : node_ptr :=
  match t with
  | NULL => NULL
  | Node a k ks _ l r => Node a k ks EmptyString (skeleton l) (skeleton r)
  end.

(** Search-tree order as [insert] builds it: strictly smaller hash keys on
    the left, greater or equal ones on the right. *)
Fixpoint bst (t : node_ptr) : Prop :=
  match t with
  | NULL => True
  | Node _ k _ _ l r =>
      Forall (fun x => x < k) (hkeys l) /\
      Forall (fun x => k <= x) (hkeys r) /\
      bst l /\ bst r
  end.

(** Every node's [key] is the hash of its [keystr]. *)
Definition hashed (t : node_ptr) : Prop :=
  Forall (fun c => c_key c = crc (c_keystr c)) (cells t).

Record wf_tree (t : node_ptr) : Prop := mk_wf_tree {
  wf_bst : bst t;
  wf_hashed : hashed t;
  wf_keys : NoDup (keystrs t);
  wf_addrs : NoDup (addrs t)
}.

(** The invariant of a container: a well-formed tree, [Q] holding exactly
    the addresses of its nodes, all of them already handed out by [new]. *)
Record wf (d : Dictionary) : Prop := mk_wf {
  wf_root : wf_tree (iRoot d);
  wf_Q : NodeArray.items (Q d) ≡ₚ addrs (iRoot d);
  wf_next : Forall (fun a => (a < next (heap d))%nat) (addrs (iRoot d))
}.

(** ** Effect-free readings of [insert_node] and [deleteNode] *)

(** What [insert] does at a link that may be null. *)
Definition ins_child (key : Z) (keystr valstr : string) (c : node_ptr)
  : method node_ptr :=
  match c with
  | NULL => create key keystr valstr
  | Node _ _ _ _ _ _ => insert_node key keystr valstr c
  end.

(** The tree [ins_child] returns when [new node] yields address [n]. *)
Fixpoint ins_tree (n : addr) (key : Z) (keystr valstr : string) (t : node_ptr)
  : node_ptr :=
  match t with
  | NULL => Node n key keystr valstr NULL NULL
  | Node a k ks vs l r =>
      if (key =? k) && String.eqb ks keystr then Node a k ks valstr l r
      else if key <? k then Node a k ks vs (ins_tree n key keystr valstr l) r
      else Node a k ks vs l (ins_tree n key keystr valstr r)
  end.

(** The state after one [create]. *)
Definition created (d : Dictionary) : Dictionary :=
  set_Q (NodeArray.append (next (heap d)) (Q d))
        (set_heap (mkHeap (S (next (heap d))) (freed (heap d))) d).

Definition is_null (p : node_ptr) : bool :=
  match p with
  | NULL => true
  | Node _ _ _ _ _ _ => false
  end.

(** The tree [deleteNode] returns. *)
Fixpoint del_tree (root : node_ptr) (key : Z) (keystr : string) : node_ptr :=
  match root with
  | NULL => NULL
  | Node a k ks vs l r =>
      if key <? k then Node a k ks vs (del_tree l key keystr) r
      else if key >? k then Node a k ks vs l (del_tree r key keystr)
      else if String.eqb ks keystr then
        match l, r with
        | NULL, _ => r
        | Node _ _ _ _ _ _, NULL => l
        | Node _ _ _ _ _ _, Node _ _ _ _ _ _ =>
            match minValueNode r with
            | Node _ tk tks tvs _ _ => Node a tk tks tvs l (del_tree r tk tks)
            | NULL => root
            end
        end
      else Node a k ks vs l (del_tree r key keystr)
  end.

(** The address [deleteNode] unregisters from [Q] and frees, if any. *)
Fixpoint del_addr (root : node_ptr) (key : Z) (keystr : string) : option addr :=
  match root with
  | NULL => None
  | Node a k ks vs l r =>
      if key <? k then del_addr l key keystr
      else if key >? k then del_addr r key keystr
      else if String.eqb ks keystr then
        match l, r with
        | NULL, _ => Some a
        | Node _ _ _ _ _ _, NULL => Some a
        | Node _ _ _ _ _ _, Node _ _ _ _ _ _ =>
            match minValueNode r with
            | Node _ tk tks _ _ _ => del_addr r tk tks
            | NULL => None
            end
        end
      else del_addr r key keystr
  end.

(** The state after [Q->remove(p); delete p] for the node at [a]. *)
Definition released (a : addr) (d : Dictionary) : Dictionary :=
  set_heap (mkHeap (next (heap d)) (a :: freed (heap d)))
           (set_Q (NodeArray.remove a (Q d)) d).

Definition released_opt (o : option addr) (d : Dictionary) : Dictionary :=
  match o with
  | Some a => released a d
  | None => d
  end.

(** A node with its value blanked. *)
Definition blank (c : cell) : cell :=
  mkCell (c_addr c) (c_key c) (c_keystr c) EmptyString.

(** The node [Q] designates at position [i], if any. *)
Definition at_index (d : Dictionary) (i : nat) : node_ptr :=
  match NodeArray.items (Q d) !! i with
  | Some a => node_at a (iRoot d)
  | None => NULL
  end.

(** The contribution of one entry to [size()]. *)
Definition esize (e : string * string) : nat :=
  (String.length e.1 + String.length e.2 + 2)%nat.

(** The pair read through the pointer at address [a]. *)
Definition entry_at (d : Dictionary) (a : addr) : string * string :=
  (keystr_or_empty (node_at a (iRoot d)), valstr_or_empty (node_at a (iRoot d))).

(** One test of the loop of [operator==], for the entry of [a] at
    address [x]. *)
Definition agrees (a b : Dictionary) (x : addr) : bool :=
  String.eqb (entry_at a x).2 (eval (search (entry_at a x).1) b).

(** A sequence of inserts, one per pair. *)
Definition inserts (l : list (string * string)) : list op :=
  (fun p => Insert p.1 p.2) <$> l.

(** A call that returns with the state it was given. *)
Definition readonly {S A} (m : St S A) : Prop := forall s, exec m s = s.

(** Membership in a list built with [++] and [::]. *)
Ltac list_in :=
  repeat first [rewrite elem_of_app | rewrite elem_of_cons]; tauto.

(** ** Definitions for the further properties *)

(** [Dictionary::operator!=(Dictionary& b)]: the negation of
    [operator==] on the same two containers. *)
Definition not_equals : St (Dictionary * Dictionary) bool :=
  let* r := equals in ret (negb r).

(** A finite map as the reference behaviour of an operation sequence:
    [Insert] sets a key, [Remove] deletes it. *)
Definition apply_op (m : gmap string string) (o : op) : gmap string string :=
  match o with
  | Insert k v => <[k:=v]> m
  | Remove k => delete k m
  end.

Definition model (ops : list op) : gmap string string :=
  fold_left apply_op ops ∅.

(** The pairs seen through [key(i)] and [value(i)], position by position. *)
Definition positions (d : Dictionary) : list (string * string) :=
  entry_at d <$> NodeArray.items (Q d).

(** The address held by a pointer; none for [NULL]. *)
Definition self_addr (p : node_ptr) : option addr :=
  match p with
  | NULL => None
  | Node a _ _ _ _ _ => Some a
  end.

(** The addresses [destroy_tree] deletes, in the order of the calls. *)
Fixpoint postorder (t : node_ptr) : list addr :=
  match t with
  | NULL => []
  | Node a _ _ _ l r => postorder l ++ postorder r ++ [a]
  end.

(** * Proofs *)

(** ** The hash on known inputs *)

Example crc_empty : crc "" = 0.
Proof. reflexivity. Qed.

Example crc_abc : crc "abc" = 0x352441C2.
Proof. vm_compute. reflexivity. Qed.

Example crc_collision : crc "plumless" = crc "buckeroo".
Proof. vm_compute. reflexivity. Qed.

(** ** The monadic code against its effect-free readings *)

Lemma insert_node_unfold key ks v a k ks0 vs l r d :
  insert_node key ks v (Node a k ks0 vs l r) d =
    if (key =? k) && String.eqb ks0 ks then (Node a k ks0 v l r, d)
    else if key <? k
         then let (l', d') := ins_child key ks v l d in (Node a k ks0 vs l' r, d')
         else let (r', d') := ins_child key ks v r d in (Node a k ks0 vs l r', d').
Proof.
  cbn [insert_node].
  destruct (Z.ltb_spec key k) as [Hlt|Hge].
  - replace (key =? k) with false by (symmetry; apply Z.eqb_neq; lia).
    cbn. destruct l; reflexivity.
  - destruct (Z.gtb_spec key k) as [Hgt|Hle].
    + replace (key =? k) with false by (symmetry; apply Z.eqb_neq; lia).
      cbn. destruct r; reflexivity.
    + replace (key =? k) with true by (symmetry; apply Z.eqb_eq; lia).
      cbn. destruct (String.eqb ks0 ks); [reflexivity|].
      destruct r; reflexivity.
Qed.

Lemma ins_child_tree key ks v c d :
  ins_child key ks v c d =
    (ins_tree (next (heap d)) key ks v c,
     if is_null (search_node key c ks) then created d else d).
Proof.
  revert d. induction c as [|a k ks0 vs l IHl r IHr]; intros d.
  - reflexivity.
  - cbn [ins_child]. rewrite insert_node_unfold. cbn [ins_tree search_node].
    destruct ((key =? k) && String.eqb ks0 ks); [reflexivity|].
    destruct (key <? k).
    + rewrite IHl. reflexivity.
    + rewrite IHr. reflexivity.
Qed.

Lemma insert_exec ks v d :
  exec (insert ks v) d =
    set_iRoot (ins_tree (next (heap d)) (crc ks) ks v (iRoot d))
      (if is_null (search_node (crc ks) (iRoot d) ks) then created d else d).
Proof.
  pose proof (ins_child_tree (crc ks) ks v (iRoot d) d) as H.
  unfold exec, insert, bind, gets. cbn [fst snd].
  destruct (iRoot d) eqn:E; cbn [ins_child] in H; rewrite H; reflexivity.
Qed.

Lemma deleteNode_tree t key ks d :
  deleteNode t key ks d = (del_tree t key ks, released_opt (del_addr t key ks) d).
Proof.
  revert key ks d. induction t as [|a k ks0 vs l IHl r IHr]; intros key ks d.
  - reflexivity.
  - cbn [deleteNode del_tree del_addr].
    destruct (key <? k).
    { unfold bind. rewrite IHl. reflexivity. }
    destruct (key >? k).
    { unfold bind. rewrite IHr. reflexivity. }
    destruct (String.eqb ks0 ks).
    2:{ unfold bind. rewrite IHr. reflexivity. }
    destruct l as [|la lk lks lvs ll lr]; [reflexivity|].
    destruct r as [|ra rk rks rvs rl rr]; [reflexivity|].
    destruct (minValueNode (Node ra rk rks rvs rl rr)); [reflexivity|].
    unfold bind. rewrite IHr. reflexivity.
Qed.

Lemma remove_exec ks d :
  exec (remove ks) d =
    match search_node (crc ks) (iRoot d) ks with
    | NULL => d
    | Node _ pk _ _ _ _ =>
        set_iRoot (del_tree (iRoot d) pk ks)
                  (released_opt (del_addr (iRoot d) pk ks) d)
    end.
Proof.
  unfold exec, remove, bind, gets. cbn [fst snd].
  destruct (search_node (crc ks) (iRoot d) ks); [reflexivity|].
  rewrite deleteNode_tree. reflexivity.
Qed.

(** ** Lists *)

Lemma NoDup_fmap_eq {A B} (f : A -> B) (l : list A) x y :
  NoDup (f <$> l) -> x ∈ l -> y ∈ l -> f x = f y -> x = y.
Proof.
  induction l as [|z l IH]; intros Hnd Hx Hy Hf.
  - inversion Hx.
  - rewrite fmap_cons in Hnd. apply NoDup_cons in Hnd as [Hz Hnd].
    apply elem_of_cons in Hx as [->|Hx]; apply elem_of_cons in Hy as [->|Hy]; auto.
    + exfalso. apply Hz. rewrite Hf. by apply list_elem_of_fmap_2.
    + exfalso. apply Hz. rewrite <- Hf. by apply list_elem_of_fmap_2.
Qed.

Lemma remove_first_perm a (l : list addr) :
  a ∈ l -> l ≡ₚ a :: NodeArray.remove_first a l.
Proof.
  induction l as [|x l IH]; intros Hin; [inversion Hin|].
  cbn [NodeArray.remove_first].
  destruct (Nat.eqb_spec x a) as [->|Hne]; [reflexivity|].
  apply elem_of_cons in Hin as [->|Hin]; [congruence|].
  rewrite (IH Hin) at 1. apply Permutation_swap.
Qed.

Lemma remove_first_absent a (l : list addr) :
  a ∉ l -> NodeArray.remove_first a l = l.
Proof.
  induction l as [|x l IH]; intros Hin; [reflexivity|].
  cbn [NodeArray.remove_first].
  destruct (Nat.eqb_spec x a) as [->|Hne].
  - exfalso. apply Hin. left.
  - f_equal. apply IH. intros H. apply Hin. by right.
Qed.

(** ** The views of a node *)

Lemma cells_Node a k ks vs l r :
  cells (Node a k ks vs l r) = cells l ++ mkCell a k ks vs :: cells r.
Proof. reflexivity. Qed.

Lemma addrs_Node a k ks vs l r :
  addrs (Node a k ks vs l r) = addrs l ++ a :: addrs r.
Proof. unfold addrs. cbn [cells]. by rewrite fmap_app. Qed.

Lemma hkeys_Node a k ks vs l r :
  hkeys (Node a k ks vs l r) = hkeys l ++ k :: hkeys r.
Proof. unfold hkeys. cbn [cells]. by rewrite fmap_app. Qed.

Lemma keystrs_Node a k ks vs l r :
  keystrs (Node a k ks vs l r) = keystrs l ++ ks :: keystrs r.
Proof. unfold keystrs. cbn [cells]. by rewrite fmap_app. Qed.

Lemma contents_Node a k ks vs l r :
  contents (Node a k ks vs l r) = contents l ++ (k, ks, vs) :: contents r.
Proof. unfold contents. cbn [cells]. by rewrite fmap_app. Qed.

Lemma hkeys_contents t : hkeys t = (fun x => x.1.1) <$> contents t.
Proof. unfold hkeys, contents. by rewrite <- list_fmap_compose. Qed.

Lemma keystrs_contents t : keystrs t = (fun x => x.1.2) <$> contents t.
Proof. unfold keystrs, contents. by rewrite <- list_fmap_compose. Qed.

Lemma entries_contents t : entries t = (fun x => (x.1.2, x.2)) <$> contents t.
Proof. unfold entries, contents. by rewrite <- list_fmap_compose. Qed.

Lemma hashed_contents t :
  hashed t <-> Forall (fun x => x.1.1 = crc x.1.2) (contents t).
Proof. unfold hashed, contents. by rewrite Forall_fmap. Qed.

Lemma cell_hkey c t : c ∈ cells t -> c_key c ∈ hkeys t.
Proof. intros H. unfold hkeys. by apply list_elem_of_fmap_2. Qed.

Lemma cell_keystr c t : c ∈ cells t -> c_keystr c ∈ keystrs t.
Proof. intros H. unfold keystrs. by apply list_elem_of_fmap_2. Qed.

Lemma cell_addr c t : c ∈ cells t -> c_addr c ∈ addrs t.
Proof. intros H. unfold addrs. by apply list_elem_of_fmap_2. Qed.

(** ** Search *)

Lemma search_node_found key t ks a k' ks' v l r :
  search_node key t ks = Node a k' ks' v l r ->
  k' = key /\ ks' = ks /\ mkCell a k' ks' v ∈ cells t /\
  Node a k' ks' v l r ∈ subtrees t.
Proof.
  induction t as [|b k ks0 vs tl IHl tr IHr]; cbn [search_node cells subtrees]; intros H.
  - discriminate.
  - destruct ((key =? k) && String.eqb ks0 ks) eqn:E.
    + injection H as -> -> -> -> -> ->.
      apply andb_true_iff in E as [E1 E2].
      apply Z.eqb_eq in E1. apply String.eqb_eq in E2.
      repeat split; auto; list_in.
    + destruct (key <? k).
      * destruct (IHl H) as (?&?&?&?). repeat split; auto; list_in.
      * destruct (IHr H) as (?&?&?&?). repeat split; auto; list_in.
Qed.

Lemma search_node_miss key t ks :
  ks ∉ keystrs t -> search_node key t ks = NULL.
Proof.
  intros Hnot. destruct (search_node key t ks) as [|a k' ks' v l r] eqn:E; [reflexivity|].
  apply search_node_found in E as (_ & -> & Hin & _).
  exfalso. apply Hnot. apply (cell_keystr _ _ Hin).
Qed.

Lemma search_node_complete t c :
  bst t -> NoDup (keystrs t) -> c ∈ cells t ->
  exists l r, search_node (c_key c) t (c_keystr c) =
              Node (c_addr c) (c_key c) (c_keystr c) (c_valstr c) l r.
Proof.
  induction t as [|b k ks0 vs tl IHl tr IHr]; intros Hbst Hnd Hin.
  - inversion Hin.
  - cbn [bst] in Hbst. destruct Hbst as (Hl & Hr & Hbl & Hbr).
    rewrite keystrs_Node in Hnd.
    pose proof Hnd as Hnd0.
    apply NoDup_app in Hnd as (Hndl & Hdisj & Hndr).
    apply NoDup_cons in Hndr as [Hks0 Hndr].
    cbn [search_node].
    destruct ((c_key c =? k) && String.eqb ks0 (c_keystr c)) eqn:E.
    + apply andb_true_iff in E as [E1 E2].
      apply Z.eqb_eq in E1. apply String.eqb_eq in E2.
      assert (c = mkCell b k ks0 vs) as ->.
      { apply (NoDup_fmap_eq c_keystr (cells (Node b k ks0 vs tl tr))).
        - fold (keystrs (Node b k ks0 vs tl tr)). by rewrite keystrs_Node.
        - done.
        - cbn [cells]. list_in.
        - done. }
      eauto.
    + cbn [cells] in Hin.
      apply elem_of_app in Hin as [Hin|Hin]; [|apply elem_of_cons in Hin as [->|Hin]].
      * pose proof (cell_hkey _ _ Hin) as Hk.
        rewrite Forall_forall in Hl. apply Hl in Hk.
        replace (c_key c <? k) with true by (symmetry; apply Z.ltb_lt; lia).
        by apply IHl.
      * cbn in E. rewrite Z.eqb_refl, String.eqb_refl in E. discriminate.
      * pose proof (cell_hkey _ _ Hin) as Hk.
        rewrite Forall_forall in Hr. apply Hr in Hk.
        replace (c_key c <? k) with false by (symmetry; apply Z.ltb_ge; lia).
        by apply IHr.
Qed.

Lemma lookup_complete t c :
  bst t -> NoDup (keystrs t) -> c ∈ cells t ->
  lookup t (c_key c) (c_keystr c) = Some (c_valstr c).
Proof.
  intros Hb Hn Hc. unfold lookup.
  destruct (search_node_complete t c Hb Hn Hc) as (l & r & ->). reflexivity.
Qed.

Lemma lookup_found t key ks v :
  lookup t key ks = Some v -> exists a, mkCell a key ks v ∈ cells t.
Proof.
  unfold lookup. destruct (search_node key t ks) as [|a k' ks' v' l r] eqn:E; [discriminate|].
  intros [= ->]. apply search_node_found in E as (-> & -> & Hin & _). eauto.
Qed.

Lemma lookup_miss t key ks : ks ∉ keystrs t -> lookup t key ks = None.
Proof. intros H. unfold lookup. by rewrite search_node_miss. Qed.

(** In a well-formed tree a lookup by key string is decided by the
    stored pairs. *)
Lemma lookup_entry t ks v :
  wf_tree t -> (ks, v) ∈ entries t -> lookup t (crc ks) ks = Some v.
Proof.
  intros [Hb Hh Hk _] Hin.
  apply list_elem_of_fmap in Hin as (c & Hc & Hin).
  injection Hc as -> ->.
  rewrite <- (proj1 (Forall_forall _ _) Hh c Hin).
  by apply lookup_complete.
Qed.

Lemma lookup_entry_inv t ks v :
  lookup t (crc ks) ks = Some v -> (ks, v) ∈ entries t.
Proof.
  intros H. apply lookup_found in H as (a & Hin).
  apply list_elem_of_fmap. exists (mkCell a (crc ks) ks v). split; [reflexivity|done].
Qed.

Lemma lookup_absent t ks :
  wf_tree t -> lookup t (crc ks) ks = None -> ks ∉ keystrs t.
Proof.
  intros Hwf Hl Hin.
  apply list_elem_of_fmap in Hin as (c & -> & Hin).
  assert ((c_keystr c, c_valstr c) ∈ entries t) as He.
  { apply list_elem_of_fmap. by exists c. }
  apply (lookup_entry _ _ _ Hwf) in He. congruence.
Qed.

(** ** Insertion into a tree *)

(** [insert] follows the path [search] follows: the inserted key is found
    right after, with the inserted value. *)
Lemma lookup_ins_tree_same n key ks v t :
  lookup (ins_tree n key ks v t) key ks = Some v.
Proof.
  unfold lookup.
  induction t as [|a k ks0 vs l IHl r IHr]; cbn [ins_tree search_node].
  - by rewrite Z.eqb_refl, String.eqb_refl.
  - destruct ((key =? k) && String.eqb ks0 ks) eqn:E.
    + cbn [search_node]. by rewrite E.
    + destruct (key <? k) eqn:E'; cbn [search_node]; by rewrite E, E'.
Qed.

(** A different key string is looked up as before. *)
Lemma lookup_ins_tree_other n key ks v t key' ks' :
  ks' <> ks ->
  lookup (ins_tree n key ks v t) key' ks' = lookup t key' ks'.
Proof.
  intros Hne. unfold lookup.
  assert (String.eqb ks ks' = false) as Hks by (apply String.eqb_neq; congruence).
  induction t as [|a k ks0 vs l IHl r IHr]; cbn [ins_tree search_node].
  - rewrite Hks, andb_false_r. by destruct (key' <? key).
  - destruct ((key =? k) && String.eqb ks0 ks) eqn:E.
    + apply andb_true_iff in E as [_ E]. apply String.eqb_eq in E. subst ks0.
      cbn [search_node]. by rewrite Hks, andb_false_r.
    + destruct (key <? k); cbn [search_node];
        destruct ((key' =? k) && String.eqb ks0 ks'); try reflexivity;
        destruct (key' <? k); auto.
Qed.

Lemma cells_ins_tree_new n key ks v t :
  search_node key t ks = NULL ->
  cells (ins_tree n key ks v t) ≡ₚ mkCell n key ks v :: cells t.
Proof.
  induction t as [|a k ks0 vs l IHl r IHr]; cbn [ins_tree search_node]; intros H.
  - reflexivity.
  - destruct ((key =? k) && String.eqb ks0 ks); [discriminate|].
    destruct (key <? k); cbn [cells].
    + rewrite (IHl H). reflexivity.
    + rewrite (IHr H). by rewrite <- !Permutation_middle, Permutation_swap.
Qed.

Lemma skeleton_ins_tree_found n key ks v t :
  search_node key t ks <> NULL ->
  skeleton (ins_tree n key ks v t) = skeleton t.
Proof.
  induction t as [|a k ks0 vs l IHl r IHr]; cbn [ins_tree search_node]; intros H.
  - congruence.
  - destruct ((key =? k) && String.eqb ks0 ks); [reflexivity|].
    destruct (key <? k); cbn [skeleton]; f_equal; auto.
Qed.

Lemma cells_skeleton t : cells (skeleton t) = blank <$> cells t.
Proof.
  induction t as [|a k ks0 vs l IHl r IHr]; [reflexivity|].
  cbn [skeleton cells]. by rewrite fmap_app, fmap_cons, IHl, IHr.
Qed.

Lemma addrs_skeleton t : addrs (skeleton t) = addrs t.
Proof. unfold addrs. by rewrite cells_skeleton, <- list_fmap_compose. Qed.

Lemma hkeys_skeleton t : hkeys (skeleton t) = hkeys t.
Proof. unfold hkeys. by rewrite cells_skeleton, <- list_fmap_compose. Qed.

Lemma keystrs_skeleton t : keystrs (skeleton t) = keystrs t.
Proof. unfold keystrs. by rewrite cells_skeleton, <- list_fmap_compose. Qed.

Lemma hashed_skeleton t : hashed (skeleton t) <-> hashed t.
Proof. unfold hashed. rewrite cells_skeleton, Forall_fmap. reflexivity. Qed.

Lemma hkeys_ins_tree n key ks v t x :
  x ∈ hkeys (ins_tree n key ks v t) -> x = key \/ x ∈ hkeys t.
Proof.
  induction t as [|a k ks0 vs l IHl r IHr]; cbn [ins_tree].
  - unfold hkeys. cbn. rewrite elem_of_cons. tauto.
  - destruct ((key =? k) && String.eqb ks0 ks).
    + rewrite !hkeys_Node. tauto.
    + destruct (key <? k); rewrite !hkeys_Node, !elem_of_app, !elem_of_cons; tauto.
Qed.

Lemma bst_ins_tree n key ks v t : bst t -> bst (ins_tree n key ks v t).
Proof.
  induction t as [|a k ks0 vs l IHl r IHr]; cbn [ins_tree]; intros Hb.
  - cbn. repeat split; constructor.
  - cbn [bst] in Hb. destruct Hb as (Hl & Hr & Hbl & Hbr).
    destruct ((key =? k) && String.eqb ks0 ks) eqn:E.
    + cbn [bst]. auto.
    + destruct (Z.ltb_spec key k) as [Hlt|Hge]; cbn [bst]; repeat split; auto.
      * apply Forall_forall. intros x Hx.
        apply hkeys_ins_tree in Hx as [->|Hx]; [done|].
        by apply (proj1 (Forall_forall _ _) Hl).
      * apply Forall_forall. intros x Hx.
        apply hkeys_ins_tree in Hx as [->|Hx]; [done|].
        by apply (proj1 (Forall_forall _ _) Hr).
Qed.

(** Well-formedness only looks at the skeleton. *)
Lemma bst_skeleton t : bst (skeleton t) <-> bst t.
Proof.
  induction t as [|a k ks0 vs l IHl r IHr]; [reflexivity|].
  cbn [skeleton bst]. rewrite !hkeys_skeleton, IHl, IHr. reflexivity.
Qed.

Lemma wf_tree_skeleton t t' :
  skeleton t' = skeleton t -> wf_tree t -> wf_tree t'.
Proof.
  intros E [Hb Hh Hk Ha]. split.
  - apply bst_skeleton. rewrite E. by apply bst_skeleton.
  - apply hashed_skeleton. rewrite E. by apply hashed_skeleton.
  - rewrite <- keystrs_skeleton, E, keystrs_skeleton. done.
  - rewrite <- addrs_skeleton, E, addrs_skeleton. done.
Qed.

(** ** The invariant is kept by [insert] *)

Lemma wf_new n : wf (Dictionary_new n).
Proof.
  split; cbn.
  - split; cbn; try done; constructor.
  - reflexivity.
  - constructor.
Qed.

Lemma wf_insert ks v d : wf d -> wf (exec (insert ks v) d).
Proof.
  intros [Ht HQ Hn]. rewrite insert_exec.
  destruct (search_node (crc ks) (iRoot d) ks) as [|a k' ks' v' l r] eqn:E; cbn [is_null].
  - (* a node is created *)
    pose proof (cells_ins_tree_new (next (heap d)) (crc ks) ks v _ E) as Hc.
    assert (ks ∉ keystrs (iRoot d)) as Hks.
    { apply lookup_absent; [done|]. unfold lookup. by rewrite E. }
    assert (next (heap d) ∉ addrs (iRoot d)) as Hfresh.
    { intros Hin. apply (proj1 (Forall_forall _ _) Hn) in Hin. lia. }
    destruct Ht as [Hb Hh Hk Ha].
    split; cbn.
    + split.
      * by apply bst_ins_tree.
      * unfold hashed. rewrite Hc. constructor; [reflexivity|done].
      * unfold keystrs. rewrite Hc. cbn. by apply NoDup_cons.
      * unfold addrs. rewrite Hc. cbn. by apply NoDup_cons.
    + unfold addrs. rewrite Hc. cbn. fold (addrs (iRoot d)).
      rewrite <- HQ. by rewrite Permutation_app_comm.
    + unfold addrs. rewrite Hc. cbn. constructor; [lia|].
      eapply Forall_impl; [exact Hn|]. cbn. intros; lia.
  - (* the value of an existing node is overwritten *)
    assert (skeleton (ins_tree (next (heap d)) (crc ks) ks v (iRoot d)) = skeleton (iRoot d)) as Hs.
    { apply skeleton_ins_tree_found. rewrite E. discriminate. }
    split; unfold set_iRoot; cbn [iRoot Q heap].
    + by apply (wf_tree_skeleton _ _ Hs).
    + by rewrite <- addrs_skeleton, Hs, addrs_skeleton.
    + by rewrite <- addrs_skeleton, Hs, addrs_skeleton.
Qed.

(** ** Removal from a tree *)

(** The in-order successor: no left child, and the least hash key. *)
Lemma minValueNode_spec a k ks vs l r :
  bst (Node a k ks vs l r) ->
  exists ta tk tks tvs tr,
    minValueNode (Node a k ks vs l r) = Node ta tk tks tvs NULL tr /\
    mkCell ta tk tks tvs ∈ cells (Node a k ks vs l r) /\
    Forall (fun x => tk <= x) (hkeys (Node a k ks vs l r)).
Proof.
  revert a k ks vs r.
  induction l as [|la lk lks lvs ll IHll lr _]; intros a k ks vs r Hb.
  - exists a, k, ks, vs, r. cbn [minValueNode cells]. split; [done|]. split; [list_in|].
    destruct Hb as (_ & Hr & _ & _).
    rewrite hkeys_Node. cbn. constructor; [lia|done].
  - destruct Hb as (Hl & Hr & Hbl & Hbr).
    destruct (IHll la lk lks lvs lr Hbl) as (ta & tk & tks & tvs & tr & Hm & Hin & Hall).
    exists ta, tk, tks, tvs, tr.
    split; [exact Hm|]. split.
    { rewrite cells_Node. list_in. }
    assert (tk < k) as Hlt.
    { apply (proj1 (Forall_forall _ _) Hl). apply (cell_hkey _ _ Hin). }
    rewrite hkeys_Node. apply Forall_app. split; [done|].
    constructor; [lia|]. eapply Forall_impl; [exact Hr|]. cbn. intros; lia.
Qed.

Lemma Forall_perm_tail {A} (P : A -> Prop) (l k : list A) x :
  l ≡ₚ x :: k -> Forall P l -> Forall P k.
Proof. intros Hp H. rewrite Hp in H. by apply Forall_cons in H as [_ H]. Qed.

Lemma hkeys_perm t t' x :
  contents t ≡ₚ x :: contents t' -> hkeys t ≡ₚ x.1.1 :: hkeys t'.
Proof. intros H. rewrite !hkeys_contents, H. reflexivity. Qed.

Lemma keystrs_perm t t' x :
  contents t ≡ₚ x :: contents t' -> keystrs t ≡ₚ x.1.2 :: keystrs t'.
Proof. intros H. rewrite !keystrs_contents, H. reflexivity. Qed.

Lemma entries_perm t t' x :
  contents t ≡ₚ x :: contents t' -> entries t ≡ₚ (x.1.2, x.2) :: entries t'.
Proof. intros H. rewrite !entries_contents, H. reflexivity. Qed.

(** Deleting a stored pair: exactly one node is released, the pair is
    gone, everything else stays, and the order is kept. *)
Lemma del_tree_spec t c :
  bst t -> NoDup (keystrs t) -> c ∈ cells t ->
  exists a',
    del_addr t (c_key c) (c_keystr c) = Some a' /\
    addrs t ≡ₚ a' :: addrs (del_tree t (c_key c) (c_keystr c)) /\
    contents t ≡ₚ content c :: contents (del_tree t (c_key c) (c_keystr c)) /\
    bst (del_tree t (c_key c) (c_keystr c)).
Proof.
  revert c. induction t as [|a k ks0 vs l IHl r IHr]; intros c Hbst Hnd Hin.
  - inversion Hin.
  - pose proof Hbst as (Hl & Hr & Hbl & Hbr).
    pose proof Hnd as Hnd0.
    rewrite keystrs_Node in Hnd.
    apply NoDup_app in Hnd as (Hndl & Hdisj & Hndr).
    apply NoDup_cons in Hndr as [Hks0 Hndr].
    cbn [del_tree del_addr].
    rewrite cells_Node in Hin.
    destruct (Z.ltb_spec (c_key c) k) as [Hlt|Hge].
    { (* left *)
      assert (c ∈ cells l) as Hc.
      { apply elem_of_app in Hin as [Hin|Hin]; [done|].
        apply elem_of_cons in Hin as [->|Hin]; [cbn in Hlt; lia|].
        apply cell_hkey in Hin. apply (proj1 (Forall_forall _ _) Hr) in Hin. lia. }
      destruct (IHl c Hbl Hndl Hc) as (a' & Ha & Hpa & Hpc & Hb').
      exists a'. split; [done|].
      rewrite !addrs_Node, !contents_Node. split; [by rewrite Hpa|].
      split; [by rewrite Hpc|].
      cbn [bst]. repeat split; auto.
      eapply Forall_perm_tail; [apply (hkeys_perm _ _ _ Hpc)|done]. }
    assert (c ∉ cells l) as Hnl.
    { intros Hc. apply cell_hkey in Hc.
      apply (proj1 (Forall_forall _ _) Hl) in Hc. lia. }
    destruct (Z.gtb_spec (c_key c) k) as [Hgt|Hle].
    { (* right *)
      assert (c ∈ cells r) as Hc.
      { apply elem_of_app in Hin as [Hin|Hin]; [done|].
        apply elem_of_cons in Hin as [->|Hin]; [cbn in Hgt; lia|done]. }
      destruct (IHr c Hbr Hndr Hc) as (a' & Ha & Hpa & Hpc & Hb').
      exists a'. split; [done|].
      rewrite !addrs_Node, !contents_Node. split.
      { rewrite Hpa. by rewrite <- !Permutation_middle, Permutation_swap. }
      split.
      { rewrite Hpc. by rewrite <- !Permutation_middle, Permutation_swap. }
      cbn [bst]. repeat split; auto.
      eapply Forall_perm_tail; [apply (hkeys_perm _ _ _ Hpc)|done]. }
    destruct (String.eqb_spec ks0 (c_keystr c)) as [Heq|Hneq].
    2:{ (* same hash, other key string: right *)
      assert (c ∈ cells r) as Hc.
      { apply elem_of_app in Hin as [Hin|Hin]; [done|].
        apply elem_of_cons in Hin as [->|Hin]; [cbn in Hneq; congruence|done]. }
      destruct (IHr c Hbr Hndr Hc) as (a' & Ha & Hpa & Hpc & Hb').
      exists a'. split; [done|].
      rewrite !addrs_Node, !contents_Node. split.
      { rewrite Hpa. by rewrite <- !Permutation_middle, Permutation_swap. }
      split.
      { rewrite Hpc. by rewrite <- !Permutation_middle, Permutation_swap. }
      cbn [bst]. repeat split; auto.
      eapply Forall_perm_tail; [apply (hkeys_perm _ _ _ Hpc)|done]. }
    (* this node holds the pair *)
    assert (c = mkCell a k ks0 vs) as ->.
    { apply (NoDup_fmap_eq c_keystr (cells (Node a k ks0 vs l r))).
      - exact Hnd0.
      - rewrite cells_Node. done.
      - rewrite cells_Node. list_in.
      - done. }
    cbn [c_key c_keystr content c_valstr].
    destruct l as [|la lk lks lvs ll lr].
    { exists a. split; [done|]. rewrite addrs_Node, contents_Node. cbn. done. }
    destruct r as [|ra rk rks rvs rl rr].
    { exists a. split; [done|]. rewrite addrs_Node, contents_Node.
      split; [|split]; [| |done].
      - by rewrite <- Permutation_middle, app_nil_r.
      - by rewrite <- Permutation_middle, app_nil_r. }
    pose proof (minValueNode_spec ra rk rks rvs rl rr Hbr) as Hms.
    cbv beta iota.
    remember (Node ra rk rks rvs rl rr) as r eqn:Er.
    destruct Hms as (ta & tk & tks & tvs & tr & Hm & Htin & Hmin).
    rewrite Hm.
    destruct (IHr (mkCell ta tk tks tvs) Hbr Hndr Htin) as (a' & Ha & Hpa & Hpc & Hb').
    cbn [c_key c_keystr content c_valstr] in *.
    exists a'. split; [done|].
    rewrite !addrs_Node, !contents_Node. split.
    { rewrite Hpa. by rewrite <- !Permutation_middle, Permutation_swap. }
    split.
    { rewrite Hpc. by rewrite <- !Permutation_middle. }
    assert (k <= tk) as Hktk.
    { apply (proj1 (Forall_forall _ _) Hr). apply (cell_hkey _ _ Htin). }
    split; [|split; [|split; [exact Hbl|exact Hb']]].
    + eapply Forall_impl; [exact Hl|]. cbn. intros; lia.
    + eapply Forall_perm_tail; [apply (hkeys_perm _ _ _ Hpc)|done].
Qed.

(** ** The invariant is kept by [remove] and by every operation sequence *)

Lemma wf_remove ks d : wf d -> wf (exec (remove ks) d).
Proof.
  intros [Ht HQ Hn]. rewrite remove_exec.
  destruct (search_node (crc ks) (iRoot d) ks) as [|a k' ks' v' l r] eqn:E.
  { by split. }
  apply search_node_found in E as (-> & -> & Hin & _).
  destruct Ht as [Hb Hh Hk Ha].
  destruct (del_tree_spec _ _ Hb Hk Hin) as (a' & Hda & Hpa & Hpc & Hb').
  cbn [c_key c_keystr] in *. rewrite Hda.
  unfold released_opt, released, set_iRoot, set_heap, set_Q. cbn [iRoot Q heap initSize next].
  split; cbn [iRoot Q heap next NodeArray.remove NodeArray.items].
  - split.
    + done.
    + apply hashed_contents. eapply Forall_perm_tail; [exact Hpc|]. by apply hashed_contents.
    + pose proof (keystrs_perm _ _ _ Hpc) as Hp. rewrite Hp in Hk.
      by apply NoDup_cons in Hk as [_ Hk].
    + rewrite Hpa in Ha. by apply NoDup_cons in Ha as [_ Ha].
  - assert (a' ∈ NodeArray.items (Q d)) as Hq.
    { rewrite HQ, Hpa. left. }
    pose proof (remove_first_perm _ _ Hq) as Hp.
    rewrite HQ, Hpa in Hp at 1. by apply Permutation_cons_inv in Hp.
  - eapply Forall_perm_tail; [exact Hpa|done].
Qed.

Lemma wf_step d o : wf d -> wf (step d o).
Proof. destruct o; cbn [step]; [apply wf_insert|apply wf_remove]. Qed.

Lemma run_app ops1 ops2 d : run (ops1 ++ ops2) d = run ops2 (run ops1 d).
Proof. unfold run. apply fold_left_app. Qed.

Lemma wf_run_from ops d : wf d -> wf (run ops d).
Proof.
  revert d. induction ops as [|o ops IH]; intros d Hd; [done|].
  cbn. apply IH. by apply wf_step.
Qed.

Lemma wf_run ops n : wf (run ops (Dictionary_new n)).
Proof. apply wf_run_from, wf_new. Qed.

(** ** The observers in closed form *)

Lemma search_run ks d :
  search ks d = (default EmptyString (lookup (iRoot d) (crc ks) ks), d).
Proof.
  unfold search, lookup, bind, gets, ret.
  by destruct (search_node (crc ks) (iRoot d) ks).
Qed.

Lemma contains_run ks d :
  contains ks d = (bool_decide (is_Some (lookup (iRoot d) (crc ks) ks)), d).
Proof.
  unfold contains, lookup, bind, gets, ret.
  destruct (search_node (crc ks) (iRoot d) ks); reflexivity.
Qed.

Lemma Q_get_run i d : Q_get i d = (at_index d i, d).
Proof.
  unfold Q_get, at_index, NodeArray.get, bind, gets, ret.
  by destruct (NodeArray.items (Q d) !! i).
Qed.

Lemma key_run i d : key i d = (keystr_or_empty (at_index d i), d).
Proof. unfold key, bind, ret. by rewrite Q_get_run. Qed.

Lemma value_run i d : value i d = (valstr_or_empty (at_index d i), d).
Proof. unfold value, bind, ret. by rewrite Q_get_run. Qed.

Lemma count_run d : count d = (length (NodeArray.items (Q d)), d).
Proof. reflexivity. Qed.

Lemma size_loop_run d n i sz :
  (i + n <= length (NodeArray.items (Q d)))%nat ->
  size_loop n i sz d =
    ((sz + sum_list_with esize
             (entry_at d <$> take n (drop i (NodeArray.items (Q d)))))%nat, d).
Proof.
  revert i sz. induction n as [|n IH]; intros i sz Hlen.
  - cbn [size_loop]. rewrite take_0. cbn. unfold ret. f_equal. lia.
  - cbn [size_loop]. unfold bind. rewrite key_run, value_run.
    destruct (lookup_lt_is_Some_2 (NodeArray.items (Q d)) i) as [a Ha]; [lia|].
    rewrite IH by lia.
    rewrite (drop_S _ a i Ha). cbn [take fmap list_fmap sum_list_with].
    unfold at_index. rewrite Ha. unfold esize at 2. unfold entry_at at 2 3.
    cbn [fst snd]. f_equal. lia.
Qed.

Lemma size_run d :
  size d = (sum_list_with esize (entry_at d <$> NodeArray.items (Q d)), d).
Proof.
  unfold size, bind. rewrite count_run, size_loop_run by (cbn; lia).
  by rewrite drop_0, firstn_all.
Qed.

Lemma eq_loop_run a b n i :
  (i + n <= length (NodeArray.items (Q a)))%nat ->
  eq_loop n i (a, b) =
    (forallb (agrees a b) (take n (drop i (NodeArray.items (Q a)))), (a, b)).
Proof.
  revert i. induction n as [|n IH]; intros i Hlen.
  - cbn [eq_loop]. by rewrite take_0.
  - cbn [eq_loop]. unfold bind, this, other. cbn [fst snd].
    rewrite value_run, key_run, search_run.
    destruct (lookup_lt_is_Some_2 (NodeArray.items (Q a)) i) as [x Hx]; [lia|].
    rewrite (drop_S _ x i Hx). cbn [take forallb].
    unfold agrees at 1, entry_at, eval. rewrite search_run. cbn [fst snd].
    unfold at_index. rewrite Hx.
    destruct (String.eqb _ _); [|reflexivity].
    rewrite IH by lia. reflexivity.
Qed.

Lemma equals_run a b :
  equals (a, b) =
    (Nat.eqb (eval size b) (eval size a) &&
     Nat.eqb (eval count b) (eval count a) &&
     forallb (agrees a b) (NodeArray.items (Q a)), (a, b)).
Proof.
  unfold equals, bind, this, other, eval. cbn [fst snd].
  rewrite !size_run. cbn [fst snd].
  destruct (Nat.eqb _ _); cbn [negb andb]; [|reflexivity].
  rewrite !count_run. cbn [fst snd].
  destruct (Nat.eqb _ _); cbn [negb andb]; [|reflexivity].
  rewrite count_run. cbn [fst snd].
  rewrite eq_loop_run by (cbn; lia).
  by rewrite drop_0, firstn_all.
Qed.

(** ** Reading a node through [Q] *)

Lemma node_at_absent a t : a ∉ addrs t -> node_at a t = NULL.
Proof.
  induction t as [|b k ks vs l IHl r IHr]; intros Hn; [reflexivity|].
  rewrite addrs_Node in Hn. cbn [node_at].
  destruct (Nat.eqb_spec b a) as [->|Hne].
  - exfalso. apply Hn. list_in.
  - rewrite IHl by (intros H; apply Hn; list_in).
    apply IHr. intros H; apply Hn; list_in.
Qed.

Lemma node_at_cell t c :
  NoDup (addrs t) -> c ∈ cells t ->
  exists l r, node_at (c_addr c) t =
              Node (c_addr c) (c_key c) (c_keystr c) (c_valstr c) l r.
Proof.
  induction t as [|b k ks vs l IHl r IHr]; intros Hnd Hin; [inversion Hin|].
  pose proof Hnd as Hnd0.
  rewrite addrs_Node in Hnd.
  apply NoDup_app in Hnd as (Hndl & Hdisj & Hndr).
  apply NoDup_cons in Hndr as [Hb Hndr].
  cbn [node_at].
  destruct (Nat.eqb_spec b (c_addr c)) as [Heq|Hne].
  - assert (c = mkCell b k ks vs) as ->.
    { apply (NoDup_fmap_eq c_addr (cells (Node b k ks vs l r))); try done.
      rewrite cells_Node. list_in. }
    eauto.
  - rewrite cells_Node in Hin.
    apply elem_of_app in Hin as [Hin|Hin]; [|apply elem_of_cons in Hin as [->|Hin]].
    + destruct (IHl Hndl Hin) as (l' & r' & ->). eauto.
    + cbn in Hne. congruence.
    + rewrite node_at_absent.
      * by apply IHr.
      * intros Hl. apply (Hdisj _ Hl). right. by apply cell_addr.
Qed.

Lemma entry_at_cell d c :
  NoDup (addrs (iRoot d)) -> c ∈ cells (iRoot d) ->
  entry_at d (c_addr c) = entry_of c.
Proof.
  intros Hnd Hin. unfold entry_at.
  destruct (node_at_cell _ _ Hnd Hin) as (l & r & ->). reflexivity.
Qed.

(** Under the invariant, the pairs read through [Q] are the pairs stored
    in the tree. *)
Lemma entries_via_Q d :
  wf d -> entry_at d <$> NodeArray.items (Q d) ≡ₚ entries (iRoot d).
Proof.
  intros [[_ _ _ Ha] HQ _]. rewrite HQ. unfold addrs, entries.
  rewrite <- list_fmap_compose.
  assert (entry_at d ∘ c_addr <$> cells (iRoot d) = entry_of <$> cells (iRoot d)) as ->; [|done].
  apply Forall_fmap_ext_1, Forall_forall.
  intros c Hc. by apply entry_at_cell.
Qed.

(** ** Calls that leave the state alone *)

Lemma readonly_ret {S A} (x : A) : readonly (@ret S A x).
Proof. by intros s. Qed.

Lemma readonly_gets {S A} (f : S -> A) : readonly (gets f).
Proof. by intros s. Qed.

Lemma readonly_bind {S A B} (m : St S A) (f : A -> St S B) :
  readonly m -> (forall x, readonly (f x)) -> readonly (bind m f).
Proof.
  intros Hm Hf s. unfold exec, bind. specialize (Hm s). unfold exec in Hm.
  destruct (m s) as [x s']. cbn in Hm. subst s'. apply Hf.
Qed.

Lemma readonly_this {A} (m : method A) : readonly m -> readonly (this m).
Proof.
  intros Hm [a b]. unfold exec, this. cbn [fst snd].
  specialize (Hm a). unfold exec in Hm. destruct (m a) as [x a']. cbn in *. by subst.
Qed.

Lemma readonly_other {A} (m : method A) : readonly m -> readonly (other m).
Proof.
  intros Hm [a b]. unfold exec, other. cbn [fst snd].
  specialize (Hm b). unfold exec in Hm. destruct (m b) as [x b']. cbn in *. by subst.
Qed.

Create HintDb readonly.
#[local] Hint Resolve readonly_ret readonly_gets readonly_this readonly_other : readonly.
#[local] Hint Extern 2 (readonly (bind _ _)) =>
  apply readonly_bind; [|intros ?] : readonly.

Lemma readonly_search ks : readonly (search ks).
Proof. unfold search. auto with readonly. Qed.

Lemma readonly_contains ks : readonly (contains ks).
Proof.
  unfold contains. apply readonly_bind; [auto with readonly|].
  intros root. destruct (search_node _ root ks); auto with readonly.
Qed.

Lemma readonly_Q_get i : readonly (Q_get i).
Proof.
  unfold Q_get. apply readonly_bind; [auto with readonly|].
  intros q. destruct (NodeArray.get q i); auto with readonly.
Qed.

Lemma readonly_key i : readonly (key i).
Proof. unfold key. pose proof (readonly_Q_get i). auto with readonly. Qed.

Lemma readonly_value i : readonly (value i).
Proof. unfold value. pose proof (readonly_Q_get i). auto with readonly. Qed.

Lemma readonly_count : readonly count.
Proof. unfold count. auto with readonly. Qed.

Lemma readonly_size_loop n i sz : readonly (size_loop n i sz).
Proof.
  revert i sz. induction n as [|n IH]; intros i sz; cbn [size_loop].
  - auto with readonly.
  - apply readonly_bind; [apply readonly_key|]. intros k.
    apply readonly_bind; [apply readonly_value|]. intros v. apply IH.
Qed.

Lemma readonly_size : readonly size.
Proof.
  unfold size. apply readonly_bind; [apply readonly_count|].
  intros ct. apply readonly_size_loop.
Qed.

Lemma readonly_eq_loop n i : readonly (eq_loop n i).
Proof.
  revert i. induction n as [|n IH]; intros i; cbn [eq_loop].
  - auto with readonly.
  - apply readonly_bind; [apply readonly_this, readonly_value|]. intros v.
    apply readonly_bind; [apply readonly_this, readonly_key|]. intros k.
    apply readonly_bind; [apply readonly_other, readonly_search|]. intros bv.
    destruct (String.eqb v bv); [apply IH|auto with readonly].
Qed.

Lemma readonly_equals : readonly equals.
Proof.
  unfold equals.
  apply readonly_bind; [apply readonly_other, readonly_size|]. intros sb.
  apply readonly_bind; [apply readonly_this, readonly_size|]. intros sa.
  destruct (negb _); [auto with readonly|].
  apply readonly_bind; [apply readonly_other, readonly_count|]. intros cb.
  apply readonly_bind; [apply readonly_this, readonly_count|]. intros ca.
  destruct (negb _); [auto with readonly|].
  apply readonly_bind; [apply readonly_this, readonly_count|]. intros ct.
  apply readonly_eq_loop.
Qed.

(** ** Lookups after an update *)

Lemma search_insert_same d k v : eval (search k) (exec (insert k v) d) = v.
Proof.
  unfold eval. rewrite search_run, insert_exec. cbn [fst iRoot set_iRoot].
  by rewrite lookup_ins_tree_same.
Qed.

Lemma lookup_insert_other d k v k' :
  k' <> k ->
  lookup (iRoot (exec (insert k v) d)) (crc k') k' = lookup (iRoot d) (crc k') k'.
Proof.
  intros Hne. rewrite insert_exec. cbn [iRoot set_iRoot].
  by apply lookup_ins_tree_other.
Qed.

Lemma search_lookup d k :
  eval (search k) d = default EmptyString (lookup (iRoot d) (crc k) k).
Proof. unfold eval. by rewrite search_run. Qed.

Lemma contains_lookup d k :
  eval (contains k) d = bool_decide (is_Some (lookup (iRoot d) (crc k) k)).
Proof. unfold eval. by rewrite contains_run. Qed.

(** * The claims *)

(** C1.  For every container state, key string [k] and value string [v]:
    immediately after [insert(k, v)], [search(k)] returns [v]. *)
Theorem insert_then_search (d : Dictionary) (k v : string) :
  eval (search k) (exec (insert k v) d) = v.
Proof. apply search_insert_same. Qed.

(** C10.  The observers -- [search], [operator()(String)], [key(i)],
    [value(i)], [count()], [size()] and [operator==] -- return with the
    state of the container (for [==], of both containers) exactly as it
    was before the call. *)
Theorem observers_leave_state (d b : Dictionary) (k : string) (i : nat) :
  exec (search k) d = d /\
  exec (contains k) d = d /\
  exec (key i) d = d /\
  exec (value i) d = d /\
  exec count d = d /\
  exec size d = d /\
  exec equals (d, b) = (d, b).
Proof.
  split; [apply readonly_search|].
  split; [apply readonly_contains|].
  split; [apply readonly_key|].
  split; [apply readonly_value|].
  split; [apply readonly_count|].
  split; [apply readonly_size|apply readonly_equals].
Qed.

(** C8.  For every container state: looking up a key that no node holds
    returns the empty string (and [operator()] says [false]); removing
    such a key leaves the state unchanged; [key(i)] and [value(i)] with
    [i] at or past [count()] return the empty string. *)
Theorem misses_are_silent (d : Dictionary) (k : string) (i : nat) :
  (k ∉ keystrs (iRoot d) ->
     eval (search k) d = EmptyString /\
     eval (contains k) d = false /\
     exec (remove k) d = d) /\
  ((eval count d <= i)%nat ->
     eval (key i) d = EmptyString /\ eval (value i) d = EmptyString).
Proof.
  split.
  - intros Hk. pose proof (search_node_miss (crc k) _ _ Hk) as Hs.
    unfold eval. rewrite search_run, contains_run, remove_exec, Hs.
    unfold lookup. rewrite Hs. done.
  - unfold eval. rewrite count_run, key_run, value_run. cbn [fst].
    intros Hi. unfold at_index.
    by rewrite (lookup_ge_None_2 _ _ Hi).
Qed.

Lemma misses_are_silent_witness :
  let d := run [Insert "a" "1"] (Dictionary_new 10) in
  (eval (search "b") d = EmptyString /\
   eval (contains "b") d = false /\
   exec (remove "b") d = d) /\
  (eval (key 1) d = EmptyString /\ eval (value 1) d = EmptyString).
Proof.
  intros d.
  destruct (misses_are_silent d "b" 1) as [H1 H2].
  split.
  - apply H1. vm_compute. intros H. inversion H as [|? ? ? H']; subst. inversion H'.
  - apply H2. vm_compute. lia.
Defined.

(** C9.  In every state reached by inserts and removes, [size()] is the
    sum over the stored pairs of [len(keystr) + len(valstr) + 2]. *)
Theorem size_is_sum (ops : list op) (n : nat) :
  let d := run ops (Dictionary_new n) in
  eval size d = sum_list_with esize (entries (iRoot d)).
Proof.
  intros d. unfold eval. rewrite size_run. cbn [fst].
  apply sum_list_with_Permutation_proper, entries_via_Q, wf_run.
Qed.

Lemma found_not_null t ks :
  wf_tree t -> ks ∈ keystrs t -> search_node (crc ks) t ks <> NULL.
Proof.
  intros Hwf Hin E.
  apply (lookup_absent t ks Hwf); [|done]. unfold lookup. by rewrite E.
Qed.

(** C7.  In every state reached by inserts and removes, [insert(k, v')]
    for a key [k] that a node already holds: afterwards [k] is looked up
    as [v'] and every other key as before; [Q] and the free store are
    untouched (no node was created), the tree keeps its shape, addresses,
    hash keys and key strings, and [count()] is the same. *)
Theorem reinsert_overwrites (ops : list op) (n : nat) (k v' : string) :
  let d := run ops (Dictionary_new n) in
  k ∈ keystrs (iRoot d) ->
  let d' := exec (insert k v') d in
  eval (search k) d' = v' /\
  (forall k', k' <> k -> eval (search k') d' = eval (search k') d) /\
  Q d' = Q d /\
  heap d' = heap d /\
  skeleton (iRoot d') = skeleton (iRoot d) /\
  eval count d' = eval count d.
Proof.
  intros d Hin d'.
  pose proof (wf_run ops n) as [Ht _ _]. fold d in Ht.
  pose proof (found_not_null _ _ Ht Hin) as Hf.
  split; [apply search_insert_same|].
  split.
  { intros k' Hne. rewrite !search_lookup. unfold d'.
    by rewrite lookup_insert_other. }
  unfold d'. rewrite insert_exec.
  destruct (search_node (crc k) (iRoot d) k) eqn:E; [done|].
  cbn [is_null]. unfold eval, set_iRoot. rewrite !count_run. cbn [iRoot Q heap fst].
  repeat split.
  apply skeleton_ins_tree_found. by rewrite E.
Qed.

Lemma reinsert_overwrites_witness :
  let d := run [Insert "x" "1"] (Dictionary_new 10) in
  let d' := exec (insert "x" "2") d in
  eval (search "x") d' = "2"%string /\
  (forall k', k' <> "x"%string -> eval (search k') d' = eval (search k') d) /\
  Q d' = Q d /\
  heap d' = heap d /\
  skeleton (iRoot d') = skeleton (iRoot d) /\
  eval count d' = eval count d.
Proof.
  apply (reinsert_overwrites [Insert "x" "1"] 10 "x" "2").
  vm_compute. left.
Defined.

(** ** What one [insert] and one [remove] do to the nodes and to [Q] *)

Lemma insert_nodes d k v :
  let d' := exec (insert k v) d in
  (addrs (iRoot d') = addrs (iRoot d) /\ Q d' = Q d /\ heap d' = heap d) \/
  (addrs (iRoot d') ≡ₚ next (heap d) :: addrs (iRoot d) /\
   NodeArray.items (Q d') = NodeArray.items (Q d) ++ [next (heap d)] /\
   next (heap d') = S (next (heap d))).
Proof.
  intros d'. unfold d'. rewrite insert_exec.
  destruct (search_node (crc k) (iRoot d) k) eqn:E; cbn [is_null].
  - right. unfold set_iRoot, created, set_Q, set_heap. cbn [iRoot Q heap next].
    split; [|done].
    unfold addrs. by rewrite (cells_ins_tree_new _ _ _ _ _ E).
  - left. unfold set_iRoot. cbn [iRoot Q heap]. split; [|done].
    rewrite <- addrs_skeleton, skeleton_ins_tree_found, addrs_skeleton; [done|].
    by rewrite E.
Qed.

Lemma remove_nodes d k :
  wf d ->
  let d' := exec (remove k) d in
  (lookup (iRoot d) (crc k) k = None /\ d' = d) \/
  (exists a v,
     lookup (iRoot d) (crc k) k = Some v /\
     addrs (iRoot d) ≡ₚ a :: addrs (iRoot d') /\
     contents (iRoot d) ≡ₚ (crc k, k, v) :: contents (iRoot d') /\
     NodeArray.items (Q d') = NodeArray.remove_first a (NodeArray.items (Q d)) /\
     heap d' = mkHeap (next (heap d)) (a :: freed (heap d))).
Proof.
  intros [Ht HQ Hn] d'. unfold d'. rewrite remove_exec. unfold lookup.
  destruct (search_node (crc k) (iRoot d) k) as [|a k' ks' v' l r] eqn:E.
  { by left. }
  right.
  apply search_node_found in E as (-> & -> & Hin & _).
  destruct Ht as [Hb Hh Hk Ha].
  destruct (del_tree_spec _ _ Hb Hk Hin) as (a' & Hda & Hpa & Hpc & Hb').
  cbn [c_key c_keystr] in *. rewrite Hda.
  exists a', v'. done.
Qed.

(** C2.  After every sequence of inserts and removes on a fresh
    container, [Q] holds exactly the addresses of the nodes reachable
    from [iRoot], each once.  An [insert] either creates no node and
    leaves [Q] alone, or creates one node and appends its address to
    [Q]; a [remove] either changes nothing, or takes one node out of the
    tree, deletes it, and removes that very address from [Q]. *)
Theorem Q_mirrors_tree :
  (forall ops n,
     let d := run ops (Dictionary_new n) in
     NoDup (addrs (iRoot d)) /\
     NodeArray.items (Q d) ≡ₚ addrs (iRoot d)) /\
  (forall d k v,
     let d' := exec (insert k v) d in
     (addrs (iRoot d') = addrs (iRoot d) /\ Q d' = Q d) \/
     (addrs (iRoot d') ≡ₚ next (heap d) :: addrs (iRoot d) /\
      NodeArray.items (Q d') = NodeArray.items (Q d) ++ [next (heap d)])) /\
  (forall ops n k,
     let d := run ops (Dictionary_new n) in
     let d' := exec (remove k) d in
     d' = d \/
     (exists a,
        addrs (iRoot d) ≡ₚ a :: addrs (iRoot d') /\
        freed (heap d') = a :: freed (heap d) /\
        NodeArray.items (Q d') = NodeArray.remove_first a (NodeArray.items (Q d)) /\
        a ∉ NodeArray.items (Q d'))).
Proof.
  split; [|split].
  - intros ops n d. destruct (wf_run ops n) as [[_ _ _ Ha] HQ _]. done.
  - intros d k v d'. destruct (insert_nodes d k v) as [(?&?&?)|(?&?&?)]; auto.
  - intros ops n k d d'.
    pose proof (wf_run ops n) as Hwf. fold d in Hwf.
    destruct (remove_nodes d k Hwf) as [[_ ?]|(a & v & _ & Hpa & _ & Hq & Hh)]; [by left|].
    right. exists a. fold d' in Hpa, Hq, Hh. rewrite Hh. repeat split; try done.
    pose proof (wf_remove k d Hwf) as [[_ _ _ Ha'] HQ' _]. fold d' in Ha', HQ'.
    rewrite HQ'. destruct Hwf as [[_ _ _ Ha] _ _].
    rewrite Hpa in Ha. by apply NoDup_cons in Ha as [? _].
Qed.

(** ** [destroy] *)

Lemma destroy_tree_fields t d :
  iRoot (exec (destroy_tree t) d) = iRoot d /\
  Q (exec (destroy_tree t) d) = Q d /\
  initSize (exec (destroy_tree t) d) = initSize d.
Proof.
  revert d. induction t as [|a k ks vs l IHl r IHr]; intros d; [done|].
  cbn [destroy_tree]. unfold exec, bind in *.
  specialize (IHl d). destruct (destroy_tree l d) as [[] d1].
  specialize (IHr d1). destruct (destroy_tree r d1) as [[] d2].
  cbn in *. intuition congruence.
Qed.

(** [destroy] returns with [iRoot] holding what it held before. *)
Lemma destroy_root d : iRoot (exec destroy d) = iRoot d.
Proof.
  unfold destroy, exec, bind, gets, modify. cbn [fst snd].
  pose proof (destroy_tree_fields (iRoot d) d) as (H & _ & _). unfold exec in H.
  destruct (destroy_tree (iRoot d) d) as [[] d1]. cbn in *. done.
Qed.

(** C3 (the code at the failing input).  After [insert("a", "1")] and
    [destroy()], [count()] is 0 but [iRoot] still holds the address of
    the root node, which has been deleted; a fresh container has a null
    [iRoot]. *)
Theorem destroy_keeps_root :
  let d := exec destroy (exec (insert "a" "1") (Dictionary_new 10)) in
  eval count d = 0%nat /\
  iRoot d = Node 0%nat (crc "a") "a" "1" NULL NULL /\
  0%nat ∈ freed (heap d) /\
  iRoot (Dictionary_new 10) = NULL.
Proof.
  vm_compute. repeat split. left.
Qed.

(** ** Order in the subtrees *)

Lemma bst_subtrees t s : bst t -> s ∈ subtrees t -> bst s.
Proof.
  induction t as [|a k ks vs l IHl r IHr]; intros Hb Hin; [inversion Hin|].
  cbn [subtrees] in Hin. pose proof Hb as (_ & _ & Hbl & Hbr).
  apply elem_of_cons in Hin as [->|Hin]; [done|].
  apply elem_of_app in Hin as [Hin|Hin]; auto.
Qed.

(** C4.  In every tree reached by inserts and removes, at every node
    [N]: the hash keys in [N]'s left subtree are at most [N]'s hash key;
    and with a hash key strictly below [N]'s, [search], [insert] and
    [deleteNode] continue in [N]'s left subtree and leave [N] and its
    right subtree as they are. *)
Theorem left_subtree_order (ops : list op) (n : nat)
    (a : addr) (k : Z) (ks vs : string) (l r : node_ptr) :
  Node a k ks vs l r ∈ subtrees (iRoot (run ops (Dictionary_new n))) ->
  (forall x, x ∈ hkeys l -> x <= k) /\
  (forall key keystr valstr d,
     key < k ->
     search_node key (Node a k ks vs l r) keystr = search_node key l keystr /\
     insert_node key keystr valstr (Node a k ks vs l r) d =
       (let (l', d') := ins_child key keystr valstr l d in (Node a k ks vs l' r, d')) /\
     deleteNode (Node a k ks vs l r) key keystr d =
       (let (l', d') := deleteNode l key keystr d in (Node a k ks vs l' r, d'))).
Proof.
  intros Hin.
  destruct (wf_run ops n) as [[Hb _ _ _] _ _].
  pose proof (bst_subtrees _ _ Hb Hin) as (Hl & _).
  split.
  - intros x Hx. apply (proj1 (Forall_forall _ _) Hl) in Hx. lia.
  - intros key keystr valstr d Hlt.
    assert ((key <? k) = true) as E1 by (apply Z.ltb_lt; lia).
    assert ((key =? k) = false) as E2 by (apply Z.eqb_neq; lia).
    rewrite insert_node_unfold. cbn [search_node deleteNode].
    rewrite E1, E2. cbn [andb]. done.
Qed.

Lemma left_subtree_order_witness :
  let l := Node 1%nat (crc "b") "b" "2" NULL NULL in
  (forall x, x ∈ hkeys l -> x <= crc "a") /\
  (forall key keystr valstr d,
     key < crc "a" ->
     search_node key (Node 0%nat (crc "a") "a" "1" l NULL) keystr = search_node key l keystr /\
     insert_node key keystr valstr (Node 0%nat (crc "a") "a" "1" l NULL) d =
       (let (l', d') := ins_child key keystr valstr l d in
        (Node 0%nat (crc "a") "a" "1" l' NULL, d')) /\
     deleteNode (Node 0%nat (crc "a") "a" "1" l NULL) key keystr d =
       (let (l', d') := deleteNode l key keystr d in
        (Node 0%nat (crc "a") "a" "1" l' NULL, d'))).
Proof.
  apply (left_subtree_order [Insert "a" "1"; Insert "b" "2"] 10).
  vm_compute. left.
Defined.

(** ** Lookups in well-formed trees depend on the stored pairs only *)

Lemma lookup_ext t t' k :
  wf_tree t -> wf_tree t' ->
  (forall v, (k, v) ∈ entries t <-> (k, v) ∈ entries t') ->
  lookup t (crc k) k = lookup t' (crc k) k.
Proof.
  intros Ht Ht' Hiff.
  destruct (lookup t (crc k) k) as [v|] eqn:E1.
  - apply lookup_entry_inv, Hiff in E1. symmetry. by apply lookup_entry.
  - destruct (lookup t' (crc k) k) as [v'|] eqn:E2; [|done].
    apply lookup_entry_inv, Hiff in E2.
    apply (lookup_entry _ _ _ Ht) in E2. congruence.
Qed.

Lemma lookup_remove_same d k :
  wf d -> lookup (iRoot (exec (remove k) d)) (crc k) k = None.
Proof.
  intros Hwf.
  destruct (remove_nodes d k Hwf) as [[Hl ->]|(a & v & _ & _ & Hpc & _)]; [done|].
  apply lookup_miss.
  destruct Hwf as [[_ _ Hk _] _ _].
  rewrite (keystrs_perm _ _ _ Hpc) in Hk. by apply NoDup_cons in Hk as [? _].
Qed.

Lemma lookup_remove_other d k k' :
  wf d -> k' <> k ->
  lookup (iRoot (exec (remove k) d)) (crc k') k' = lookup (iRoot d) (crc k') k'.
Proof.
  intros Hwf Hne.
  pose proof (wf_remove k d Hwf) as [Ht' _ _].
  destruct (remove_nodes d k Hwf) as [[Hl ->]|(a & v & _ & _ & Hpc & _)]; [done|].
  destruct Hwf as [Ht _ _].
  apply lookup_ext; try done.
  intros v0. rewrite (entries_perm _ _ _ Hpc). cbn [fst snd].
  rewrite elem_of_cons. split; [auto|]. intros [[=]|]; [congruence|done].
Qed.

Lemma lookup_step_other d o k :
  wf d -> op_key o <> k ->
  lookup (iRoot (step d o)) (crc k) k = lookup (iRoot d) (crc k) k.
Proof.
  intros Hwf Hne. destruct o as [k0 v0|k0]; cbn [step op_key] in *.
  - apply lookup_insert_other. congruence.
  - apply lookup_remove_other; [done|congruence].
Qed.

Lemma lookup_run_other ops d k :
  wf d -> Forall (fun o => op_key o <> k) ops ->
  lookup (iRoot (run ops d)) (crc k) k = lookup (iRoot d) (crc k) k.
Proof.
  revert d. induction ops as [|o ops IH]; intros d Hwf Hall; [done|].
  apply Forall_cons in Hall as [Ho Hall]. cbn [run fold_left].
  fold (run ops (step d o)).
  rewrite IH; [|by apply wf_step|done]. by apply lookup_step_other.
Qed.

Lemma lookup_insert_same d k v :
  lookup (iRoot (exec (insert k v) d)) (crc k) k = Some v.
Proof. rewrite insert_exec. cbn [iRoot set_iRoot]. apply lookup_ins_tree_same. Qed.

(** C5.  Two distinct key strings with the same hash, each inserted at
    some point of an operation sequence on a fresh container (the
    operations after the insert of a key do not mention that key): both
    are stored under the one hash key, each is found with its own value,
    and removing either leaves the other found with its value and
    removable in turn. *)
Theorem colliding_keys_independent
    (k1 k2 v1 v2 : string) (opsA opsB opsC : list op) (n : nat) :
  k1 <> k2 ->
  crc k1 = crc k2 ->
  Forall (fun o => op_key o <> k1) opsB ->
  Forall (fun o => op_key o <> k1 /\ op_key o <> k2) opsC ->
  let d := run (opsA ++ Insert k1 v1 :: opsB ++ Insert k2 v2 :: opsC)
               (Dictionary_new n) in
  ((crc k1, k1, v1) ∈ contents (iRoot d) /\ (crc k1, k2, v2) ∈ contents (iRoot d)) /\
  (eval (search k1) d = v1 /\ eval (search k2) d = v2) /\
  (let d' := exec (remove k1) d in
   eval (contains k1) d' = false /\
   eval (contains k2) d' = true /\ eval (search k2) d' = v2 /\
   eval (contains k2) (exec (remove k2) d') = false) /\
  (let d' := exec (remove k2) d in
   eval (contains k2) d' = false /\
   eval (contains k1) d' = true /\ eval (search k1) d' = v1 /\
   eval (contains k1) (exec (remove k1) d') = false).
Proof.
  intros Hne Hcrc HB HC d.
  assert (wf d) as Hwf by apply wf_run.
  assert (lookup (iRoot d) (crc k1) k1 = Some v1 /\
          lookup (iRoot d) (crc k2) k2 = Some v2) as [L1 L2].
  { unfold d. rewrite run_app. cbn [run fold_left].
    set (dA := fold_left step opsA (Dictionary_new n)).
    assert (wf dA) as HdA by apply wf_run.
    fold (run (opsB ++ Insert k2 v2 :: opsC) (step dA (Insert k1 v1))).
    rewrite run_app. cbn [run fold_left].
    set (d1 := step dA (Insert k1 v1)).
    assert (wf d1) as Hd1 by (by apply wf_step).
    set (dB := fold_left step opsB d1).
    assert (wf dB) as HdB by (by apply wf_run_from).
    fold (run opsC (step dB (Insert k2 v2))).
    assert (wf (step dB (Insert k2 v2))) as Hd2 by (by apply wf_step).
    split.
    - rewrite lookup_run_other; [|done|].
      2:{ eapply Forall_impl; [exact HC|]. cbn. tauto. }
      cbn [step]. rewrite lookup_insert_other by done.
      unfold dB. fold (run opsB d1). rewrite lookup_run_other by done.
      apply lookup_insert_same.
    - rewrite lookup_run_other; [|done|].
      2:{ eapply Forall_impl; [exact HC|]. cbn. tauto. }
      apply lookup_insert_same. }
  split.
  { apply lookup_found in L1 as (a1 & H1). apply lookup_found in L2 as (a2 & H2).
    rewrite <- Hcrc in H2.
    split; unfold contents.
    - by apply (list_elem_of_fmap_2' content _ _ _ H1).
    - by apply (list_elem_of_fmap_2' content _ _ _ H2). }
  split.
  { rewrite !search_lookup, L1, L2. done. }
  split.
  - intros d'.
    assert (wf d') as Hwf' by (by apply wf_remove).
    rewrite !contains_lookup, !search_lookup.
    unfold d'. rewrite lookup_remove_same by done.
    rewrite lookup_remove_same by done.
    rewrite lookup_remove_other by done. rewrite L2. done.
  - intros d'.
    assert (wf d') as Hwf' by (by apply wf_remove).
    rewrite !contains_lookup, !search_lookup.
    unfold d'. rewrite lookup_remove_same by done.
    rewrite lookup_remove_same by done.
    rewrite lookup_remove_other by done. rewrite L1. done.
Qed.

Lemma colliding_keys_independent_witness :
  let d := run ([Insert "z" "0"] ++ Insert "plumless" "1" ::
                [Insert "m" "5"] ++ Insert "buckeroo" "2" :: [Remove "z"])
               (Dictionary_new 10) in
  crc "plumless" = crc "buckeroo" /\
  (eval (search "plumless") d = "1"%string /\
   eval (search "buckeroo") d = "2"%string) /\
  (let d' := exec (remove "plumless") d in
   eval (contains "plumless") d' = false /\
   eval (contains "buckeroo") d' = true /\
   eval (search "buckeroo") d' = "2"%string /\
   eval (contains "buckeroo") (exec (remove "buckeroo") d') = false).
Proof.
  intros d.
  assert (crc "plumless" = crc "buckeroo") as Hcrc by (vm_compute; reflexivity).
  split; [exact Hcrc|].
  assert ("plumless"%string <> "buckeroo"%string) as Hne by discriminate.
  assert (Forall (fun o => op_key o <> "plumless"%string) [Insert "m" "5"]) as HB
    by (repeat constructor; cbn; discriminate).
  assert (Forall (fun o => op_key o <> "plumless"%string /\
                           op_key o <> "buckeroo"%string) [Remove "z"]) as HC
    by (repeat constructor; cbn; discriminate).
  destruct (colliding_keys_independent
              "plumless" "buckeroo" "1" "2"
              [Insert "z" "0"] [Insert "m" "5"] [Remove "z"] 10 Hne Hcrc HB HC)
    as (_ & Hs & Hr & _).
  split; [exact Hs|exact Hr].
Defined.

(** ** Equality of containers *)

Lemma size_wf d : wf d -> eval size d = sum_list_with esize (entries (iRoot d)).
Proof.
  intros Hwf. unfold eval. rewrite size_run. cbn [fst].
  by apply sum_list_with_Permutation_proper, entries_via_Q.
Qed.

Lemma count_wf d : wf d -> eval count d = length (entries (iRoot d)).
Proof.
  intros Hwf. unfold eval. rewrite count_run. cbn [fst].
  rewrite <- (entries_via_Q d Hwf). by rewrite length_fmap.
Qed.

(** The loop of [operator==] succeeds exactly when every pair stored in
    [a] is looked up in [b] with the same value. *)
Lemma eq_loop_wf a b :
  wf a ->
  forallb (agrees a b) (NodeArray.items (Q a)) = true <->
  Forall (fun e => eval (search e.1) b = e.2) (entries (iRoot a)).
Proof.
  intros Hwf. rewrite <- (entries_via_Q a Hwf), Forall_fmap.
  rewrite <- Is_true_true, forallb_True.
  apply Forall_iff. intros x. unfold agrees. cbn.
  rewrite Is_true_true, String.eqb_eq. split; congruence.
Qed.

Lemma equals_wf a b :
  wf a ->
  eval equals (a, b) = true <->
  eval size b = eval size a /\
  eval count b = eval count a /\
  Forall (fun e => eval (search e.1) b = e.2) (entries (iRoot a)).
Proof.
  intros Hwf. unfold eval at 1. rewrite equals_run. cbn [fst].
  rewrite !andb_true_iff, !Nat.eqb_eq, (eq_loop_wf a b Hwf). tauto.
Qed.

Lemma equals_of_perm a b :
  wf a -> wf b -> entries (iRoot a) ≡ₚ entries (iRoot b) ->
  eval equals (a, b) = true.
Proof.
  intros Ha Hb Hp. apply equals_wf; [done|].
  rewrite !size_wf, !count_wf by done. rewrite Hp. repeat split.
  apply Forall_forall. intros [k v] Hin. cbn [fst snd].
  rewrite search_lookup.
  destruct Hb as [Htb _ _].
  by rewrite (lookup_entry _ _ _ Htb Hin).
Qed.

Lemma NoDup_entries t : NoDup (keystrs t) -> NoDup (entries t).
Proof.
  unfold keystrs, entries. intros H.
  apply (NoDup_fmap_1 fst). by rewrite <- list_fmap_compose.
Qed.

Lemma entries_insert_new d k v :
  wf d -> k ∉ keystrs (iRoot d) ->
  entries (iRoot (exec (insert k v) d)) ≡ₚ (k, v) :: entries (iRoot d).
Proof.
  intros Hwf Hk. rewrite insert_exec. cbn [iRoot set_iRoot].
  unfold entries.
  rewrite (cells_ins_tree_new _ _ _ _ _ (search_node_miss (crc k) _ _ Hk)).
  reflexivity.
Qed.

Lemma keystrs_entries t : keystrs t = (entries t).*1.
Proof. unfold keystrs, entries. by rewrite <- list_fmap_compose. Qed.

Lemma entries_inserts l d :
  wf d -> NoDup l.*1 -> (forall k, k ∈ l.*1 -> k ∉ keystrs (iRoot d)) ->
  entries (iRoot (run (inserts l) d)) ≡ₚ l ++ entries (iRoot d).
Proof.
  revert d. induction l as [|[k v] l IH]; intros d Hwf Hnd Hfresh; [done|].
  cbn [inserts fmap list_fmap run fold_left step fst snd].
  fold (inserts l). fold (run (inserts l) (exec (insert k v) d)).
  rewrite fmap_cons in Hnd. apply NoDup_cons in Hnd as [Hk Hnd]. cbn [fst] in Hk.
  assert (k ∉ keystrs (iRoot d)) as Hkd.
  { apply Hfresh. rewrite fmap_cons. left. }
  pose proof (entries_insert_new d k v Hwf Hkd) as He.
  rewrite IH; [| by apply wf_insert | done |].
  - rewrite He. by rewrite <- Permutation_middle.
  - intros k' Hk'. rewrite keystrs_entries, He, fmap_cons. cbn [fst].
    rewrite <- keystrs_entries. rewrite elem_of_cons.
    intros [->|Hin]; [done|].
    apply (Hfresh k'); [|done]. rewrite fmap_cons. by right.
Qed.

(** C6, the counterexample to symmetry.  [a] stores "ab" with the empty
    value, [b] stores "a" with value "b": same [size()], same [count()];
    [a == b] looks up "ab" in [b], misses, and compares the empty string
    with the empty value; [b == a] looks up "a" in [a], misses, and
    compares the empty string with "b". *)
Lemma equals_not_symmetric :
  let a := run [Insert "ab" ""] (Dictionary_new 10) in
  let b := run [Insert "a" "b"] (Dictionary_new 10) in
  eval equals (a, b) = true /\ eval equals (b, a) = false.
Proof. vm_compute. done. Qed.

(** C6, as the code has it.  On containers reached by inserts and
    removes: [a == a] holds; [a == b] gives [b == a] provided no value
    stored in [a] is the empty string; and two fresh containers filled
    with the same pairs of pairwise distinct keys, in any two orders,
    compare equal. *)
Theorem equals_properties :
  (forall ops n,
     let a := run ops (Dictionary_new n) in
     eval equals (a, a) = true) /\
  (forall opsa na opsb nb,
     let a := run opsa (Dictionary_new na) in
     let b := run opsb (Dictionary_new nb) in
     (forall k v, (k, v) ∈ entries (iRoot a) -> v <> EmptyString) ->
     eval equals (a, b) = true -> eval equals (b, a) = true) /\
  (forall l1 l2 na nb,
     NoDup l1.*1 -> l1 ≡ₚ l2 ->
     eval equals (run (inserts l1) (Dictionary_new na),
                  run (inserts l2) (Dictionary_new nb)) = true).
Proof.
  split; [|split].
  - intros ops n a. apply equals_of_perm; try apply wf_run. done.
  - intros opsa na opsb nb a b Hne Hab.
    assert (wf a) as Ha by apply wf_run.
    assert (wf b) as Hb by apply wf_run.
    apply (equals_wf a b Ha) in Hab as (_ & Hc & Hall).
    apply equals_of_perm; try done. symmetry.
    apply submseteq_length_Permutation.
    + apply NoDup_submseteq.
      * apply NoDup_entries. by destruct Ha as [[]].
      * intros [k v] Hin.
        pose proof (proj1 (Forall_forall _ _) Hall _ Hin) as Hs. cbn [fst snd] in Hs.
        rewrite search_lookup in Hs.
        destruct (lookup (iRoot b) (crc k) k) as [v'|] eqn:E; cbn in Hs.
        -- subst v'. by apply lookup_entry_inv.
        -- exfalso. by apply (Hne k v).
    + rewrite <- !count_wf by done. lia.
  - intros l1 l2 na nb Hnd Hp.
    apply equals_of_perm; try apply wf_run.
    assert (forall l n, NoDup l.*1 ->
              entries (iRoot (run (inserts l) (Dictionary_new n))) ≡ₚ l) as Hl.
    { intros l n Hl. rewrite entries_inserts.
      - cbn. by rewrite app_nil_r.
      - apply wf_new.
      - done.
      - intros k _. cbn. apply not_elem_of_nil. }
    rewrite !Hl; [done| |done]. by rewrite <- Hp.
Qed.

Lemma equals_properties_witness :
  (let a := run [Insert "a" "1"; Insert "b" "2"] (Dictionary_new 10) in
   let b := run [Insert "b" "2"; Insert "a" "1"] (Dictionary_new 4) in
   eval equals (b, a) = true) /\
  eval equals (run (inserts [("a", "1"); ("b", "2"); ("c", "3")]) (Dictionary_new 10),
               run (inserts [("c", "3"); ("a", "1"); ("b", "2")]) (Dictionary_new 10))
    = true.
Proof.
  destruct equals_properties as (_ & Hsym & Hord).
  split.
  - apply (Hsym [Insert "a" "1"; Insert "b" "2"] 10%nat
                [Insert "b" "2"; Insert "a" "1"] 4%nat).
    + vm_compute. intros k v H.
      repeat (apply elem_of_cons in H as [H|H]; [injection H as -> ->; discriminate|]).
      inversion H.
    + vm_compute. reflexivity.
  - apply Hord.
    + cbn. repeat constructor; rewrite ?elem_of_cons; intros H;
        repeat (destruct H as [H|H]; [discriminate|]); inversion H.
    + symmetry. apply (Permutation_cons_append [("a", "1"); ("b", "2")] ("c", "3")).
Defined.

(** * Further properties of the code *)

(** ** The container against a finite map *)

Lemma step_model d m o :
  wf d ->
  (forall k, lookup (iRoot d) (crc k) k = m !! k) ->
  forall k, lookup (iRoot (step d o)) (crc k) k = apply_op m o !! k.
Proof.
  intros Hwf Hm k. destruct o as [k0 v0|k0]; cbn [step apply_op].
  - destruct (decide (k = k0)) as [->|Hne].
    + by rewrite lookup_insert_same, lookup_insert_eq.
    + rewrite lookup_insert_other by done. by rewrite lookup_insert_ne.
  - destruct (decide (k = k0)) as [->|Hne].
    + by rewrite lookup_remove_same, lookup_delete_eq.
    + rewrite lookup_remove_other by done. by rewrite lookup_delete_ne.
Qed.

Lemma run_model_from ops d m :
  wf d ->
  (forall k, lookup (iRoot d) (crc k) k = m !! k) ->
  forall k, lookup (iRoot (run ops d)) (crc k) k = fold_left apply_op ops m !! k.
Proof.
  revert d m. induction ops as [|o ops IH]; intros d m Hwf Hm k; [apply Hm|].
  cbn [run fold_left]. apply IH; [by apply wf_step|].
  by apply step_model.
Qed.

Lemma run_model ops n k :
  lookup (iRoot (run ops (Dictionary_new n))) (crc k) k = model ops !! k.
Proof. apply run_model_from; [apply wf_new|]. intros k'. by rewrite lookup_empty. Qed.

Lemma entries_model ops n :
  entries (iRoot (run ops (Dictionary_new n))) ≡ₚ map_to_list (model ops).
Proof.
  pose proof (wf_run ops n) as [Ht _ _].
  apply NoDup_Permutation.
  - apply NoDup_entries. by destruct Ht.
  - apply NoDup_map_to_list.
  - intros [k v]. rewrite elem_of_map_to_list, <- (run_model ops n). split.
    + by apply lookup_entry.
    + apply lookup_entry_inv.
Qed.

(** X1.  After any sequence of inserts and removes on a fresh container,
    [search(k)] and [operator()(k)] answer as a finite map that went
    through the same sequence: the last value set for [k] if [k] is set
    and not deleted since, the empty string (resp. [false]) otherwise. *)
Theorem behaves_as_map (ops : list op) (n : nat) (k : string) :
  let d := run ops (Dictionary_new n) in
  eval (search k) d = default EmptyString (model ops !! k) /\
  eval (contains k) d = bool_decide (is_Some (model ops !! k)).
Proof.
  intros d. unfold d. by rewrite search_lookup, contains_lookup, run_model.
Qed.

(** X2.  After any sequence of inserts and removes on a fresh container,
    the pairs stored in the tree are exactly the pairs of the finite map,
    [count()] is the number of keys of the map, and [size()] is the sum
    of [len(key) + len(value) + 2] over the map. *)
Theorem stores_the_map (ops : list op) (n : nat) :
  let d := run ops (Dictionary_new n) in
  entries (iRoot d) ≡ₚ map_to_list (model ops) /\
  eval count d = base.size (model ops) /\
  eval size d = sum_list_with esize (map_to_list (model ops)).
Proof.
  intros d. pose proof (entries_model ops n) as He. fold d in He.
  pose proof (wf_run ops n) as Hwf. fold d in Hwf.
  split; [done|]. split.
  - rewrite count_wf by done. by rewrite He, length_map_to_list.
  - rewrite size_wf by done. by rewrite He.
Qed.

(** ** The shape of the tree *)

Lemma subtree_cell t a k ks vs l r :
  Node a k ks vs l r ∈ subtrees t -> mkCell a k ks vs ∈ cells t.
Proof.
  induction t as [|b k0 ks0 vs0 tl IHl tr IHr]; intros Hin; [inversion Hin|].
  cbn [subtrees] in Hin. rewrite cells_Node.
  apply elem_of_cons in Hin as [Heq|Hin].
  - injection Heq as -> -> -> -> -> ->. list_in.
  - apply elem_of_app in Hin as [Hin|Hin]; [apply IHl in Hin|apply IHr in Hin]; list_in.
Qed.

(** X3.  In every tree reached by inserts and removes, at every node:
    all hash keys of the left subtree are strictly smaller than the
    node's, all hash keys of the right subtree are greater or equal, and
    the node's hash key is the hash of its key string; and no two nodes
    hold the same key string. *)
Theorem tree_is_ordered (ops : list op) (n : nat) :
  let t := iRoot (run ops (Dictionary_new n)) in
  Forall (fun s => match s with
                   | NULL => True
                   | Node _ k ks _ l r =>
                       Forall (fun x => x < k) (hkeys l) /\
                       Forall (fun x => k <= x) (hkeys r) /\
                       k = crc ks
                   end) (subtrees t) /\
  NoDup (keystrs t).
Proof.
  intros t. destruct (wf_run ops n) as [[Hb Hh Hk _] _ _]. fold t in Hb, Hh, Hk.
  split; [|done].
  apply Forall_forall. intros [|a k ks vs l r] Hin; [done|].
  pose proof (bst_subtrees _ _ Hb Hin) as (Hl & Hr & _).
  split; [done|]. split; [done|].
  apply subtree_cell in Hin.
  apply (proj1 (Forall_forall _ _) Hh _ Hin).
Qed.

(** ** One insert, on any state *)

(** X4.  In every state: after [insert(k, v)] the key is contained, and
    [count()] has grown by one if the key was not contained before and
    is unchanged if it was. *)
Theorem insert_counts (d : Dictionary) (k v : string) :
  let d' := exec (insert k v) d in
  eval (contains k) d' = true /\
  eval count d' =
    if eval (contains k) d then eval count d else S (eval count d).
Proof.
  intros d'. unfold d'. split.
  - by rewrite contains_lookup, lookup_insert_same.
  - rewrite contains_lookup. unfold lookup, eval. rewrite !count_run, insert_exec.
    destruct (search_node (crc k) (iRoot d) k); cbn.
    + rewrite length_app. cbn. lia.
    + done.
Qed.

(** X5.  In every state: [insert(k, v)] does not change what [search]
    and [operator()] answer for any other key string. *)
Theorem insert_frame (d : Dictionary) (k v k' : string) :
  k' <> k ->
  eval (search k') (exec (insert k v) d) = eval (search k') d /\
  eval (contains k') (exec (insert k v) d) = eval (contains k') d.
Proof.
  intros Hne. by rewrite !search_lookup, !contains_lookup, lookup_insert_other.
Qed.

Lemma insert_frame_witness :
  let d := run [Insert "a" "1"] (Dictionary_new 10) in
  eval (search "a") (exec (insert "b" "2") d) = eval (search "a") d /\
  eval (contains "a") (exec (insert "b" "2") d) = eval (contains "a") d.
Proof. intros d. apply insert_frame. discriminate. Defined.

(** ** Insert and remove together *)

Lemma del_ins_tree n key ks v t :
  search_node key t ks = NULL ->
  del_tree (ins_tree n key ks v t) key ks = t /\
  del_addr (ins_tree n key ks v t) key ks = Some n.
Proof.
  induction t as [|a k ks0 vs l IHl r IHr]; cbn [ins_tree search_node]; intros H.
  - cbn [del_tree del_addr]. rewrite Z.ltb_irrefl.
    replace (key >? key) with false by (symmetry; rewrite Z.gtb_ltb; apply Z.ltb_irrefl).
    by rewrite String.eqb_refl.
  - destruct ((key =? k) && String.eqb ks0 ks) eqn:E; [discriminate|].
    destruct (Z.ltb_spec key k) as [Hlt|Hge]; cbn [del_tree del_addr].
    + replace (key <? k) with true by (symmetry; apply Z.ltb_lt; lia).
      destruct (IHl H) as [-> ->]. done.
    + replace (key <? k) with false by (symmetry; apply Z.ltb_ge; lia).
      destruct (IHr H) as [E1 E2].
      destruct (Z.gtb_spec key k) as [Hgt|Hle]; [by rewrite E1, E2|].
      assert (key = k) as -> by lia. rewrite Z.eqb_refl in E. cbn in E.
      rewrite E. by rewrite E1, E2.
Qed.

Lemma remove_first_last a (l : list addr) :
  a ∉ l -> NodeArray.remove_first a (l ++ [a]) = l.
Proof.
  induction l as [|x l IH]; intros Hn; cbn [NodeArray.remove_first app].
  - by rewrite Nat.eqb_refl.
  - destruct (Nat.eqb_spec x a) as [->|Hne].
    + exfalso. apply Hn. left.
    + f_equal. apply IH. intros H. apply Hn. by right.
Qed.

Lemma fresh_not_in_Q d : wf d -> next (heap d) ∉ NodeArray.items (Q d).
Proof.
  intros [_ HQ Hn] Hin. rewrite HQ in Hin.
  apply (proj1 (Forall_forall _ _) Hn) in Hin. lia.
Qed.

(** X6.  In every state reached by inserts and removes: inserting a key
    that is not contained and removing it again gives back the same tree
    and the same [Q]; the free store has handed out one address and got
    it back. *)
Theorem insert_remove_restores (ops : list op) (n : nat) (k v : string) :
  let d := run ops (Dictionary_new n) in
  eval (contains k) d = false ->
  let d' := exec (remove k) (exec (insert k v) d) in
  iRoot d' = iRoot d /\
  Q d' = Q d /\
  initSize d' = initSize d /\
  heap d' = mkHeap (S (next (heap d))) (next (heap d) :: freed (heap d)).
Proof.
  intros d Hc d'.
  assert (wf d) as Hwf by apply wf_run.
  rewrite contains_lookup in Hc. unfold lookup in Hc.
  destruct (search_node (crc k) (iRoot d) k) eqn:E; [|discriminate]. clear Hc.
  unfold d'. rewrite remove_exec, insert_exec, E. cbn [is_null iRoot set_iRoot].
  pose proof (lookup_ins_tree_same (next (heap d)) (crc k) k v (iRoot d)) as Hl.
  unfold lookup in Hl.
  destruct (search_node (crc k) (ins_tree _ _ _ _ _) k) as [|a pk pks pv pl pr] eqn:E'; [discriminate|].
  apply search_node_found in E' as (-> & _).
  destruct (del_ins_tree (next (heap d)) (crc k) k v (iRoot d) E) as [-> ->].
  unfold released_opt, released, created, set_iRoot, set_heap, set_Q.
  cbn [iRoot Q heap initSize next freed NodeArray.remove NodeArray.append
       NodeArray.items NodeArray.init_size].
  unfold NodeArray.remove, NodeArray.append. cbn [NodeArray.items NodeArray.init_size].
  rewrite remove_first_last by (by apply fresh_not_in_Q).
  by destruct (Q d).
Qed.

Lemma insert_remove_restores_witness :
  let d := run [Insert "a" "1"; Insert "b" "2"] (Dictionary_new 10) in
  let d' := exec (remove "c") (exec (insert "c" "3") d) in
  iRoot d' = iRoot d /\
  Q d' = Q d /\
  initSize d' = initSize d /\
  heap d' = mkHeap (S (next (heap d))) (next (heap d) :: freed (heap d)).
Proof.
  apply (insert_remove_restores [Insert "a" "1"; Insert "b" "2"] 10 "c" "3").
  vm_compute. reflexivity.
Defined.

(** X7.  In every state reached by inserts and removes: a second
    [remove(k)] right after [remove(k)] changes nothing. *)
Theorem remove_twice (ops : list op) (n : nat) (k : string) :
  let d := run ops (Dictionary_new n) in
  exec (remove k) (exec (remove k) d) = exec (remove k) d.
Proof.
  intros d. assert (wf d) as Hwf by apply wf_run.
  pose proof (lookup_remove_same d k Hwf) as Hl. unfold lookup in Hl.
  rewrite (remove_exec k (exec (remove k) d)).
  by destruct (search_node (crc k) (iRoot (exec (remove k) d)) k).
Qed.

(** ** What [deleteNode] and [minValueNode] do on any tree *)

Lemma del_addr_node t key ks a :
  del_addr t key ks = Some a ->
  exists k' ks' vs' l r,
    Node a k' ks' vs' l r ∈ subtrees t /\ (l = NULL \/ r = NULL).
Proof.
  revert key ks. induction t as [|b k ks0 vs l IHl r IHr]; intros key ks H.
  - discriminate.
  - cbn [del_addr] in H. cbn [subtrees].
    assert (forall key ks, del_addr l key ks = Some a ->
              exists k' ks' vs' l0 r0,
                Node a k' ks' vs' l0 r0 ∈ Node b k ks0 vs l r :: subtrees l ++ subtrees r /\
                (l0 = NULL \/ r0 = NULL)) as HL.
    { intros key' ks' H'. destruct (IHl _ _ H') as (k1 & ks1 & vs1 & l1 & r1 & Hin & Hc).
      exists k1, ks1, vs1, l1, r1. split; [list_in|done]. }
    assert (forall key ks, del_addr r key ks = Some a ->
              exists k' ks' vs' l0 r0,
                Node a k' ks' vs' l0 r0 ∈ Node b k ks0 vs l r :: subtrees l ++ subtrees r /\
                (l0 = NULL \/ r0 = NULL)) as HR.
    { intros key' ks' H'. destruct (IHr _ _ H') as (k1 & ks1 & vs1 & l1 & r1 & Hin & Hc).
      exists k1, ks1, vs1, l1, r1. split; [list_in|done]. }
    destruct (key <? k); [by eapply HL|].
    destruct (key >? k); [by eapply HR|].
    destruct (String.eqb ks0 ks); [|by eapply HR].
    destruct l as [|la lk lks lvs ll lr].
    { injection H as ->. exists k, ks0, vs, NULL, r. split; [left|by left]. }
    destruct r as [|ra rk rks rvs rl rr].
    { injection H as ->. exists k, ks0, vs, (Node la lk lks lvs ll lr), NULL.
      split; [left|by right]. }
    destruct (minValueNode (Node ra rk rks rvs rl rr)); [discriminate|].
    by eapply HR.
Qed.

(** X8.  On any tree, [deleteNode] either leaves [Q] and the free store
    alone, or unregisters from [Q] and deletes one node of the tree, and
    that node has at most one child; a node with two children is never
    the one deleted. *)
Theorem deleteNode_releases (t : node_ptr) (key : Z) (ks : string) (d : Dictionary) :
  let d' := exec (deleteNode t key ks) d in
  d' = d \/
  exists a k' ks' vs' l r,
    Node a k' ks' vs' l r ∈ subtrees t /\
    (l = NULL \/ r = NULL) /\
    Q d' = NodeArray.remove a (Q d) /\
    heap d' = mkHeap (next (heap d)) (a :: freed (heap d)) /\
    iRoot d' = iRoot d.
Proof.
  intros d'. unfold d', exec. rewrite deleteNode_tree. cbn [snd].
  destruct (del_addr t key ks) as [a|] eqn:E; [right|by left].
  destruct (del_addr_node _ _ _ _ E) as (k' & ks' & vs' & l & r & Hin & Hc).
  exists a, k', ks', vs', l, r. done.
Qed.

(** X9.  [minValueNode] of a non-null pointer returns a node of that
    tree that has no left child; when the tree is ordered, no hash key in
    it is smaller than that node's. *)
Theorem minValueNode_leftmost (a : addr) (k : Z) (ks vs : string) (l r : node_ptr) :
  let n := Node a k ks vs l r in
  exists ta tk tks tvs tr,
    minValueNode n = Node ta tk tks tvs NULL tr /\
    Node ta tk tks tvs NULL tr ∈ subtrees n /\
    (bst n -> Forall (fun x => tk <= x) (hkeys n)).
Proof.
  revert a k ks vs r.
  induction l as [|la lk lks lvs ll IHll lr _]; intros a k ks vs r n.
  - exists a, k, ks, vs, r. split; [done|]. split; [left|].
    intros Hb. by destruct (minValueNode_spec _ _ _ _ _ _ Hb)
      as (ta & tk & tks & tvs & tr & [= <- <- <- <- <-] & _ & Hall).
  - destruct (IHll la lk lks lvs lr) as (ta & tk & tks & tvs & tr & Hm & Hin & _).
    exists ta, tk, tks, tvs, tr. split; [exact Hm|]. split.
    { unfold n. apply elem_of_cons. right. apply elem_of_app. by left. }
    intros Hb. destruct (minValueNode_spec _ _ _ _ _ _ Hb)
      as (ta' & tk' & tks' & tvs' & tr' & Hm' & _ & Hall).
    unfold n in Hm'. cbn [minValueNode] in Hm', Hm. rewrite Hm in Hm'.
    by injection Hm' as <- <- <- <- <-.
Qed.

Lemma minValueNode_leftmost_witness :
  let n := Node 0%nat 5 "a" "1" (Node 1%nat 3 "b" "2" NULL NULL) NULL in
  minValueNode n = Node 1%nat 3 "b" "2" NULL NULL /\
  Forall (fun x => 3 <= x) (hkeys n).
Proof.
  intros n.
  destruct (minValueNode_leftmost 0%nat 5 "a" "1" (Node 1%nat 3 "b" "2" NULL NULL) NULL)
    as (ta & tk & tks & tvs & tr & Hm & _ & Hall).
  cbn in Hm. injection Hm as <- <- <- <- <-.
  split; [reflexivity|]. apply Hall.
  cbn. repeat split; repeat constructor; lia.
Defined.

(** ** The hash stays in 32 bits and inside the table *)

Lemma lxor_range a b n :
  0 < n -> 0 <= a < 2 ^ n -> 0 <= b < 2 ^ n -> 0 <= Z.lxor a b < 2 ^ n.
Proof.
  intros Hn [Ha1 Ha2] [Hb1 Hb2].
  assert (0 <= Z.lxor a b) as Hx by (apply Z.lxor_nonneg; tauto).
  split; [done|].
  destruct (Z.eq_dec (Z.lxor a b) 0) as [->|Hne]; [lia|].
  apply Z.log2_lt_pow2; [lia|].
  pose proof (Z.log2_lxor a b Ha1 Hb1) as Hl.
  assert (Z.log2 a < n) as Hla.
  { destruct (Z.eq_dec a 0) as [->|]; [cbn; lia|]. apply Z.log2_lt_pow2; lia. }
  assert (Z.log2 b < n) as Hlb.
  { destruct (Z.eq_dec b 0) as [->|]; [cbn; lia|]. apply Z.log2_lt_pow2; lia. }
  lia.
Qed.

Lemma table_length : length CRC.table = 256%nat.
Proof. reflexivity. Qed.

Lemma table_range : Forall (fun x => 0 <= x < 2 ^ 32) CRC.table.
Proof.
  apply Forall_forall. intros x Hx. apply list_elem_of_In in Hx.
  assert (forallb (fun x => (0 <=? x) && (x <? 2 ^ 32)) CRC.table = true) as H
    by (vm_compute; reflexivity).
  rewrite forallb_forall in H. specialize (H x Hx).
  apply andb_true_iff in H as [H1 H2].
  apply Z.leb_le in H1. apply Z.ltb_lt in H2. lia.
Qed.

Lemma byte_of_range c : 0 <= CRC.byte_of c < 2 ^ 8.
Proof.
  unfold CRC.byte_of. pose proof (N_ascii_bounded c) as H.
  change (2 ^ 8) with 256. lia.
Qed.

Lemma index_range acc c :
  0 <= Z.lxor (Z.land acc 0xFF) (CRC.byte_of c) < 2 ^ 8.
Proof.
  apply lxor_range; [lia| |apply byte_of_range].
  change 0xFF with (Z.ones 8). rewrite Z.land_ones by lia.
  apply Z.mod_pos_bound. lia.
Qed.

Lemma step_range acc c : 0 <= acc < 2 ^ 32 -> 0 <= CRC.step acc c < 2 ^ 32.
Proof.
  intros [H1 H2]. unfold CRC.step. apply lxor_range; [lia| |].
  - pose proof (index_range acc c) as Hi.
    apply (proj1 (Forall_nth _ 0 _) table_range).
    rewrite table_length. change (2 ^ 8) with 256 in Hi. lia.
  - rewrite Z.shiftr_div_pow2 by lia. split.
    + apply Z.div_pos; lia.
    + apply Z.div_lt_upper_bound; lia.
Qed.

Lemma crc_from_range s acc : 0 <= acc < 2 ^ 32 -> 0 <= CRC.crc_from acc s < 2 ^ 32.
Proof.
  revert acc. induction s as [|c s IH]; intros acc H; [done|].
  cbn [CRC.crc_from]. apply IH. by apply step_range.
Qed.

(** X10.  The hash of every string fits the 32-bit [uintNN_t]; and
    whatever the running value, the index the loop of [crc] reads with is
    inside [table[0x100]]. *)
Theorem crc_in_range :
  (forall s : string, 0 <= crc s < 2 ^ 32) /\
  (forall (acc : Z) (c : ascii),
     (Z.to_nat (Z.lxor (Z.land acc 0xFF) (CRC.byte_of c)) < length CRC.table)%nat).
Proof.
  split.
  - intros s. apply crc_from_range. lia.
  - intros acc c. pose proof (index_range acc c) as H.
    rewrite table_length. change (2 ^ 8) with 256 in H. lia.
Qed.

(** ** [destroy] and the free store *)

Lemma destroy_tree_run t d :
  destroy_tree t d =
    (tt, set_heap (mkHeap (next (heap d)) (rev (postorder t) ++ freed (heap d))) d).
Proof.
  revert d. induction t as [|a k ks vs l IHl r IHr]; intros d.
  - cbn. unfold ret, set_heap. by destruct d as [? ? ? []].
  - cbn [destroy_tree postorder]. unfold bind. rewrite IHl, IHr.
    unfold free, modify, set_heap. cbn [iRoot Q initSize heap next freed].
    rewrite !rev_app_distr. cbn [rev app]. by rewrite <- !app_assoc.
Qed.

Lemma postorder_perm t : postorder t ≡ₚ addrs t.
Proof.
  induction t as [|a k ks vs l IHl r IHr]; [done|].
  cbn [postorder]. rewrite addrs_Node, IHl, IHr.
  by rewrite (Permutation_app_comm (addrs r) [a]).
Qed.

Lemma destroy_run d :
  exec destroy d =
    mkDictionary (iRoot d) (NodeArray.new (initSize d)) (initSize d)
      (mkHeap (next (heap d)) (rev (postorder (iRoot d)) ++ freed (heap d))).
Proof.
  unfold exec, destroy, bind, gets, modify. rewrite destroy_tree_run. reflexivity.
Qed.

(** Every address handed out so far is either a node of the tree or has
    been deleted, and none is both or twice. *)
Lemma alloc_step d o :
  wf d ->
  addrs (iRoot d) ++ freed (heap d) ≡ₚ seq 0 (next (heap d)) ->
  addrs (iRoot (step d o)) ++ freed (heap (step d o)) ≡ₚ seq 0 (next (heap (step d o))).
Proof.
  intros Hwf Hinv. destruct o as [k v|k]; cbn [step].
  - rewrite insert_exec.
    destruct (search_node (crc k) (iRoot d) k) eqn:E; cbn [is_null].
    + unfold set_iRoot, created, set_Q, set_heap. cbn [iRoot heap next freed].
      unfold addrs. rewrite (cells_ins_tree_new _ _ _ _ _ E). cbn [fmap list_fmap c_addr].
      fold (addrs (iRoot d)). rewrite seq_S. cbn [app plus].
      rewrite <- Hinv. by rewrite Permutation_cons_append.
    + unfold set_iRoot. cbn [iRoot heap].
      rewrite <- addrs_skeleton, skeleton_ins_tree_found, addrs_skeleton; [done|].
      by rewrite E.
  - destruct (remove_nodes d k Hwf) as [[_ ->]|(a & v & _ & Hpa & _ & _ & Hh)]; [done|].
    rewrite Hh. cbn [next freed]. rewrite <- Hinv, Hpa.
    by rewrite <- Permutation_middle.
Qed.

Lemma alloc_run_from ops d :
  wf d ->
  addrs (iRoot d) ++ freed (heap d) ≡ₚ seq 0 (next (heap d)) ->
  addrs (iRoot (run ops d)) ++ freed (heap (run ops d))
    ≡ₚ seq 0 (next (heap (run ops d))).
Proof.
  revert d. induction ops as [|o ops IH]; intros d Hwf Hinv; [done|].
  cbn [run fold_left]. apply IH; [by apply wf_step|by apply alloc_step].
Qed.

(** X11.  A container that went through any sequence of inserts and
    removes and is then destroyed: every node allocated during its life
    has been deleted exactly once, and [Q] is a new empty array of the
    initial capacity. *)
Theorem destroy_frees_all (ops : list op) (n : nat) :
  let d := exec destroy (run ops (Dictionary_new n)) in
  freed (heap d) ≡ₚ seq 0 (next (heap d)) /\
  NoDup (freed (heap d)) /\
  Q d = NodeArray.new n.
Proof.
  intros d.
  pose proof (alloc_run_from ops (Dictionary_new n) (wf_new n)) as Hinv.
  cbn [Dictionary_new iRoot heap next freed] in Hinv. specialize (Hinv (reflexivity _)).
  assert (initSize (run ops (Dictionary_new n)) = n) as Hn.
  { clear. assert (forall d, initSize (run ops d) = initSize d) as H; [|apply H].
    induction ops as [|o ops IH]; intros d; [done|].
    cbn [run fold_left]. fold (run ops (step d o)). rewrite IH.
    destruct o as [k v|k]; cbn [step].
    - rewrite insert_exec. by destruct (is_null _).
    - rewrite remove_exec.
      destruct (search_node _ _ _); [done|].
      by destruct (del_addr _ _ _). }
  assert (freed (heap d) ≡ₚ seq 0 (next (heap d))) as Hp.
  { unfold d. rewrite destroy_run. cbn [heap next freed].
    rewrite <- Hinv, <- Permutation_rev, postorder_perm. done. }
  split; [done|]. split.
  - rewrite Hp. apply NoDup_ListNoDup, List.seq_NoDup.
  - unfold d. rewrite destroy_run. cbn [Q]. by rewrite Hn.
Qed.

(** X12.  [destroy()] in any state: exactly the nodes reachable from
    [iRoot] are deleted, the children of a node before the node; the
    allocation counter is untouched; afterwards [count()] and [size()]
    are 0 and [key(i)], [value(i)] are the empty string for every [i]. *)
Theorem destroy_empties (d : Dictionary) (i : nat) :
  let d' := exec destroy d in
  freed (heap d') = rev (postorder (iRoot d)) ++ freed (heap d) /\
  postorder (iRoot d) ≡ₚ addrs (iRoot d) /\
  next (heap d') = next (heap d) /\
  eval count d' = 0%nat /\
  eval size d' = 0%nat /\
  eval (key i) d' = EmptyString /\
  eval (value i) d' = EmptyString.
Proof.
  intros d'. unfold d'. rewrite destroy_run.
  split; [done|]. split; [apply postorder_perm|]. done.
Qed.

(** ** Positional access *)

Lemma key_value_positions d i :
  eval (key i) d = from_option fst EmptyString (positions d !! i) /\
  eval (value i) d = from_option snd EmptyString (positions d !! i).
Proof.
  unfold eval, positions. rewrite key_run, value_run, list_lookup_fmap.
  unfold at_index. by destruct (NodeArray.items (Q d) !! i).
Qed.

(** X13.  In every state reached by inserts and removes: [key(i)] and
    [value(i)] read the [i]-th pair of a list that holds every stored
    pair exactly once (and are empty past its end), and looking up
    [key(i)] finds it, with value [value(i)]. *)
Theorem positions_enumerate (ops : list op) (n : nat) :
  let d := run ops (Dictionary_new n) in
  (forall i,
     eval (key i) d = from_option fst EmptyString (positions d !! i) /\
     eval (value i) d = from_option snd EmptyString (positions d !! i)) /\
  positions d ≡ₚ map_to_list (model ops) /\
  Forall (fun e => eval (search e.1) d = e.2 /\ eval (contains e.1) d = true)
         (positions d).
Proof.
  intros d. assert (wf d) as Hwf by apply wf_run.
  pose proof (entries_via_Q d Hwf) as Hp. fold (positions d) in Hp.
  split; [intros i; apply key_value_positions|]. split.
  - rewrite Hp. apply entries_model.
  - rewrite Hp. apply Forall_forall. intros [k v] Hin. cbn [fst snd].
    destruct Hwf as [Ht _ _].
    rewrite search_lookup, contains_lookup, (lookup_entry _ _ _ Ht Hin). done.
Qed.

Lemma cells_ins_tree_found n key ks v t :
  NoDup (keystrs t) -> search_node key t ks <> NULL ->
  cells (ins_tree n key ks v t) =
    (fun c => if String.eqb (c_keystr c) ks
              then mkCell (c_addr c) (c_key c) (c_keystr c) v else c) <$> cells t.
Proof.
  set (upd := fun c => if String.eqb (c_keystr c) ks
                       then mkCell (c_addr c) (c_key c) (c_keystr c) v else c).
  assert (forall t', ks ∉ keystrs t' -> upd <$> cells t' = cells t') as Hid.
  { intros t' Hn. rewrite <- (list_fmap_id (cells t')) at 2.
    apply Forall_fmap_ext_1, Forall_forall. intros c Hc. unfold upd.
    destruct (String.eqb_spec (c_keystr c) ks) as [<-|]; [|done].
    exfalso. apply Hn. by apply cell_keystr. }
  induction t as [|a k ks0 vs l IHl r IHr]; cbn [ins_tree search_node]; intros Hnd H.
  - congruence.
  - rewrite keystrs_Node in Hnd.
    apply NoDup_app in Hnd as (Hndl & Hdisj & Hndr).
    apply NoDup_cons in Hndr as [Hks0 Hndr].
    rewrite !cells_Node, fmap_app, fmap_cons.
    destruct ((key =? k) && String.eqb ks0 ks) eqn:E.
    + apply andb_true_iff in E as [_ E]. apply String.eqb_eq in E. subst ks0.
      rewrite cells_Node, !Hid; [|done|].
      * unfold upd at 1. cbn [c_keystr c_addr c_key]. by rewrite String.eqb_refl.
      * intros Hl. apply (Hdisj _ Hl). left.
    + assert (ks ∈ keystrs (if key <? k then l else r)) as Hin.
      { destruct (search_node key (if key <? k then l else r) ks)
          as [|a' k' ks' v' l' r'] eqn:E'.
        - destruct (key <? k); congruence.
        - apply search_node_found in E' as (_ & -> & Hc & _).
          apply (cell_keystr _ _ Hc). }
      assert (upd (mkCell a k ks0 vs) = mkCell a k ks0 vs) as Hroot.
      { unfold upd. cbn [c_keystr].
        destruct (String.eqb_spec ks0 ks) as [->|]; [|done]. exfalso.
        destruct (key <? k); [apply (Hdisj _ Hin); left|done]. }
      rewrite Hroot.
      destruct (key <? k); rewrite cells_Node.
      * rewrite (IHl Hndl H), (Hid r); [done|].
        intros Hr. apply (Hdisj _ Hin). by right.
      * rewrite (IHr Hndr H), (Hid l); [done|].
        intros Hl. by apply (Hdisj _ Hl); right.
Qed.

Lemma entry_at_addr d c :
  wf d -> c ∈ cells (iRoot d) -> entry_at d (c_addr c) = entry_of c.
Proof. intros [[_ _ _ Ha] _ _]. by apply entry_at_cell. Qed.

(** X14.  In every state reached by inserts and removes, [insert(k, v)]
    keeps every position: a key not contained before is added as the
    last position, after the unchanged earlier ones; a key contained
    before keeps its position and only its value changes. *)
Theorem insert_positions (ops : list op) (n : nat) (k v : string) :
  let d := run ops (Dictionary_new n) in
  positions (exec (insert k v) d) =
    if eval (contains k) d
    then (fun e => if String.eqb e.1 k then (k, v) else e) <$> positions d
    else positions d ++ [(k, v)].
Proof.
  intros d. assert (wf d) as Hwf by apply wf_run.
  pose proof (wf_insert k v d Hwf) as Hwf'.
  assert (forall a, a ∈ NodeArray.items (Q d) ->
            exists c, c ∈ cells (iRoot d) /\ c_addr c = a) as Hcell.
  { intros a Ha. destruct Hwf as [_ HQ _]. rewrite HQ in Ha.
    apply list_elem_of_fmap in Ha as (c & -> & Hc). eauto. }
  rewrite contains_lookup. unfold lookup, positions.
  pose proof (insert_exec k v d) as Hex.
  destruct (search_node (crc k) (iRoot d) k) as [|a0 k0 ks0 v0 l0 r0] eqn:E;
    cbn [is_null] in Hex.
  - (* a new last position *)
    pose proof (cells_ins_tree_new (next (heap d)) (crc k) k v _ E) as Hc.
    assert (cells (iRoot (exec (insert k v) d))
              ≡ₚ mkCell (next (heap d)) (crc k) k v :: cells (iRoot d)) as Hc'.
    { by rewrite Hex. }
    assert (NodeArray.items (Q (exec (insert k v) d)) =
              NodeArray.items (Q d) ++ [next (heap d)]) as -> by (by rewrite Hex).
    rewrite fmap_app. cbn [fmap list_fmap]. f_equal.
    + apply Forall_fmap_ext_1, Forall_forall. intros a Ha.
      destruct (Hcell a Ha) as (c & Hc0 & <-).
      rewrite (entry_at_addr d c Hwf Hc0).
      apply (entry_at_addr _ c Hwf'). rewrite Hc'. by right.
    + f_equal.
      apply (entry_at_addr _ (mkCell (next (heap d)) (crc k) k v) Hwf').
      rewrite Hc'. left.
  - (* the value at an existing position *)
    assert (cells (iRoot (exec (insert k v) d)) =
              (fun c => if String.eqb (c_keystr c) k
                        then mkCell (c_addr c) (c_key c) (c_keystr c) v else c)
                <$> cells (iRoot d)) as Hc'.
    { rewrite Hex. cbn [iRoot set_iRoot]. apply cells_ins_tree_found.
      - by destruct Hwf as [[]].
      - by rewrite E. }
    assert (NodeArray.items (Q (exec (insert k v) d)) = NodeArray.items (Q d)) as ->
      by (by rewrite Hex).
    cbn [bool_decide]. rewrite <- list_fmap_compose.
    apply Forall_fmap_ext_1, Forall_forall. intros a Ha. unfold compose.
    destruct (Hcell a Ha) as (c & Hc0 & <-).
    rewrite !(entry_at_addr d c Hwf Hc0).
    set (c' := if String.eqb (c_keystr c) k
               then mkCell (c_addr c) (c_key c) (c_keystr c) v else c).
    assert (c' ∈ cells (iRoot (exec (insert k v) d))) as Hin'.
    { rewrite Hc'. apply list_elem_of_fmap. by exists c. }
    assert (c_addr c' = c_addr c) as Ha' by (unfold c'; by destruct (String.eqb _ _)).
    rewrite <- Ha', (entry_at_addr _ c' Hwf' Hin').
    unfold c', entry_of. cbn [fst].
    destruct (String.eqb_spec (c_keystr c) k) as [Heq|]; [|done].
    cbn. by rewrite Heq.
Qed.

(** ** Equality against the finite map *)

Lemma equals_sound a b :
  wf a -> wf b ->
  (forall k v, (k, v) ∈ entries (iRoot a) -> v <> EmptyString) ->
  eval equals (a, b) = true ->
  entries (iRoot a) ≡ₚ entries (iRoot b).
Proof.
  intros Ha Hb Hne Hab.
  apply (equals_wf a b Ha) in Hab as (_ & Hc & Hall).
  apply submseteq_length_Permutation.
  - apply NoDup_submseteq.
    + apply NoDup_entries. by destruct Ha as [[]].
    + intros [k v] Hin.
      pose proof (proj1 (Forall_forall _ _) Hall _ Hin) as Hs. cbn [fst snd] in Hs.
      rewrite search_lookup in Hs.
      destruct (lookup (iRoot b) (crc k) k) as [v'|] eqn:E; cbn in Hs.
      * subst v'. by apply lookup_entry_inv.
      * exfalso. by apply (Hne k v).
  - rewrite <- !count_wf by done. lia.
Qed.

(** X15.  Two containers, each reached by its own sequence of inserts
    and removes: if the finite maps of the two sequences are equal, [==]
    is true; if [==] is true and the first map holds no empty value, the
    two maps are equal; and [!=] is the negation of [==] and changes
    neither container. *)
Theorem equals_decides_map (ops1 ops2 : list op) (n1 n2 : nat) :
  let a := run ops1 (Dictionary_new n1) in
  let b := run ops2 (Dictionary_new n2) in
  (model ops1 = model ops2 -> eval equals (a, b) = true) /\
  ((forall k v, model ops1 !! k = Some v -> v <> EmptyString) ->
   eval equals (a, b) = true -> model ops1 = model ops2) /\
  eval not_equals (a, b) = negb (eval equals (a, b)) /\
  exec not_equals (a, b) = (a, b).
Proof.
  intros a b.
  assert (wf a) as Ha by apply wf_run.
  assert (wf b) as Hb by apply wf_run.
  pose proof (entries_model ops1 n1) as Ea. fold a in Ea.
  pose proof (entries_model ops2 n2) as Eb. fold b in Eb.
  split; [|split; [|split]].
  - intros Hm. apply equals_of_perm; try done. by rewrite Ea, Eb, Hm.
  - intros Hne Hab. apply map_to_list_inj. rewrite <- Ea, <- Eb.
    apply equals_sound; try done.
    intros k v Hin. rewrite Ea in Hin. apply elem_of_map_to_list in Hin. eauto.
  - unfold eval, not_equals, bind, ret. by destruct (equals (a, b)).
  - pose proof (readonly_equals (a, b)) as Hr.
    unfold exec, not_equals, bind, ret in *. by destruct (equals (a, b)).
Qed.

Lemma equals_decides_map_witness :
  let a := run [Insert "a" "1"; Insert "b" "2"; Remove "b"] (Dictionary_new 10) in
  let b := run [Insert "a" "0"; Insert "a" "1"] (Dictionary_new 4) in
  eval equals (a, b) = true /\
  model [Insert "a" "1"; Insert "b" "2"; Remove "b"] =
    model [Insert "a" "0"; Insert "a" "1"].
Proof.
  intros a b.
  destruct (equals_decides_map [Insert "a" "1"; Insert "b" "2"; Remove "b"]
              [Insert "a" "0"; Insert "a" "1"] 10 4) as (H1 & H2 & _).
  assert (eval equals (a, b) = true) as He.
  { apply H1. apply map_eq. intros k. unfold model. cbn [fold_left apply_op].
    destruct (decide (k = "b"%string)) as [->|Hb].
    - rewrite lookup_delete_eq, insert_insert_eq.
      by rewrite lookup_insert_ne.
    - rewrite lookup_delete_ne by done. rewrite lookup_insert_ne by done.
      by rewrite insert_insert_eq. }
  split; [exact He|].
  apply H2; [|exact He].
  intros k v Hk. unfold model in Hk. cbn [fold_left apply_op] in Hk.
  destruct (decide (k = "b"%string)) as [->|Hb].
  - by rewrite lookup_delete_eq in Hk.
  - rewrite lookup_delete_ne in Hk by done. rewrite lookup_insert_ne in Hk by done.
    destruct (decide (k = "a"%string)) as [->|Hka].
    + rewrite lookup_insert_eq in Hk. by injection Hk as <-.
    + rewrite lookup_insert_ne in Hk by done. by rewrite lookup_empty in Hk.
Defined.

(** ** What [remove] does to the positions *)

Lemma minValueNode_in a k ks vs l r :
  exists ta tk tks tvs tr,
    minValueNode (Node a k ks vs l r) = Node ta tk tks tvs NULL tr /\
    Node ta tk tks tvs NULL tr ∈ subtrees (Node a k ks vs l r).
Proof.
  revert a k ks vs r.
  induction l as [|la lk lks lvs ll IHll lr _]; intros a k ks vs r.
  - exists a, k, ks, vs, r. split; [done|left].
  - destruct (IHll la lk lks lvs lr) as (ta & tk & tks & tvs & tr & Hm & Hin).
    exists ta, tk, tks, tvs, tr. split; [exact Hm|].
    apply elem_of_cons. right. apply elem_of_app. by left.
Qed.

Lemma subtree_root_by_key a k ks vs l r s :
  NoDup (keystrs (Node a k ks vs l r)) ->
  s ∈ subtrees (Node a k ks vs l r) ->
  keystr_or_empty s = ks -> s = Node a k ks vs l r.
Proof.
  intros Hnd Hin Hks. cbn [subtrees] in Hin.
  apply elem_of_cons in Hin as [->|Hin]; [done|]. exfalso.
  rewrite keystrs_Node in Hnd.
  apply NoDup_app in Hnd as (_ & Hdisj & Hndr).
  apply NoDup_cons in Hndr as [Hks0 _].
  destruct s as [|sa sk sks svs sl sr].
  { apply elem_of_app in Hin as [Hin|Hin].
    - clear -Hin. induction l as [|? ? ? ? ? IH1 ? IH2]; [inversion Hin|].
      cbn [subtrees] in Hin. apply elem_of_cons in Hin as [?|Hin]; [done|].
      apply elem_of_app in Hin as [?|?]; auto.
    - clear -Hin. induction r as [|? ? ? ? ? IH1 ? IH2]; [inversion Hin|].
      cbn [subtrees] in Hin. apply elem_of_cons in Hin as [?|Hin]; [done|].
      apply elem_of_app in Hin as [?|?]; auto. }
  cbn in Hks. subst sks.
  apply elem_of_app in Hin as [Hin|Hin]; apply subtree_cell, cell_keystr in Hin;
    cbn [c_keystr] in Hin.
  - apply (Hdisj _ Hin). left.
  - done.
Qed.

(** Which node [deleteNode] releases and what the remaining nodes hold,
    for the pair held by the node [Node a k ks vs l r] of an ordered
    tree. *)
Lemma del_tree_cells t a k ks vs l r :
  bst t -> NoDup (keystrs t) ->
  Node a k ks vs l r ∈ subtrees t ->
  exists c',
    c' ∈ cells t /\
    Some (c_addr c') =
      (if is_null l || is_null r then Some a else self_addr (minValueNode r)) /\
    del_addr t k ks = Some (c_addr c') /\
    Forall (fun c'' =>
              c'' ∈ cells t \/
              (is_null l || is_null r = false /\
               c_addr c'' = a /\ content c'' = content c'))
           (cells (del_tree t k ks)).
Proof.
  revert a k ks vs l r.
  induction t as [|b k0 ks0 vs0 tl IHl tr IHr]; intros a k ks vs l r Hbst Hnd Hin.
  - inversion Hin.
  - pose proof Hbst as (Hl & Hr & Hbl & Hbr).
    pose proof Hnd as Hnd0.
    rewrite keystrs_Node in Hnd.
    apply NoDup_app in Hnd as (Hndl & Hdisj & Hndr).
    apply NoDup_cons in Hndr as [Hks0 Hndr].
    pose proof (subtree_cell _ _ _ _ _ _ _ Hin) as Hc. rewrite cells_Node in Hc.
    cbn [del_tree del_addr].
    assert (forall c1, Forall (fun c'' =>
                c'' ∈ cells tl \/
                (is_null l || is_null r = false /\
                 c_addr c'' = a /\ content c'' = content c1)) (cells tl)) as Hall_l.
    { intros c1. apply Forall_forall. auto. }
    assert (forall c1, Forall (fun c'' =>
                c'' ∈ cells tr \/
                (is_null l || is_null r = false /\
                 c_addr c'' = a /\ content c'' = content c1)) (cells tr)) as Hall_r.
    { intros c1. apply Forall_forall. auto. }
    (* the node is in the left subtree *)
    assert (Node a k ks vs l r ∈ subtrees tl ->
            exists c',
              c' ∈ cells (Node b k0 ks0 vs0 tl tr) /\
              Some (c_addr c') =
                (if is_null l || is_null r then Some a else self_addr (minValueNode r)) /\
              del_addr tl k ks = Some (c_addr c') /\
              Forall (fun c'' =>
                        c'' ∈ cells (Node b k0 ks0 vs0 tl tr) \/
                        (is_null l || is_null r = false /\
                         c_addr c'' = a /\ content c'' = content c'))
                     (cells (Node b k0 ks0 vs0 (del_tree tl k ks) tr))) as HL.
    { intros Hs. destruct (IHl _ _ _ _ _ _ Hbl Hndl Hs) as (c' & Hc' & Ha' & Hd & Hall).
      exists c'. rewrite !cells_Node. split; [list_in|]. split; [done|]. split; [done|].
      apply Forall_app. split; [|constructor].
      - eapply Forall_impl; [exact Hall|]. cbn. intros c'' [?|?]; [left; list_in|by right].
      - left. list_in.
      - eapply Forall_impl; [exact (Hall_r c')|]. cbn.
        intros c'' [?|?]; [left; list_in|by right]. }
    assert (Node a k ks vs l r ∈ subtrees tr ->
            exists c',
              c' ∈ cells (Node b k0 ks0 vs0 tl tr) /\
              Some (c_addr c') =
                (if is_null l || is_null r then Some a else self_addr (minValueNode r)) /\
              del_addr tr k ks = Some (c_addr c') /\
              Forall (fun c'' =>
                        c'' ∈ cells (Node b k0 ks0 vs0 tl tr) \/
                        (is_null l || is_null r = false /\
                         c_addr c'' = a /\ content c'' = content c'))
                     (cells (Node b k0 ks0 vs0 tl (del_tree tr k ks)))) as HR.
    { intros Hs. destruct (IHr _ _ _ _ _ _ Hbr Hndr Hs) as (c' & Hc' & Ha' & Hd & Hall).
      exists c'. rewrite !cells_Node. split; [list_in|]. split; [done|]. split; [done|].
      apply Forall_app. split; [|constructor].
      - eapply Forall_impl; [exact (Hall_l c')|]. cbn.
        intros c'' [?|?]; [left; list_in|by right].
      - left. list_in.
      - eapply Forall_impl; [exact Hall|]. cbn. intros c'' [?|?]; [left; list_in|by right]. }
    (* where the node is *)
    cbn [subtrees] in Hin.
    apply elem_of_cons in Hin as [Heq|Hin].
    2:{ apply elem_of_app in Hin as [Hin|Hin].
        - pose proof (cell_hkey _ _ (subtree_cell _ _ _ _ _ _ _ Hin)) as Hk.
          apply (proj1 (Forall_forall _ _) Hl) in Hk. cbn [c_key] in Hk.
          replace (k <? k0) with true by (symmetry; apply Z.ltb_lt; lia).
          by apply HL.
        - pose proof (cell_hkey _ _ (subtree_cell _ _ _ _ _ _ _ Hin)) as Hk.
          apply (proj1 (Forall_forall _ _) Hr) in Hk. cbn [c_key] in Hk.
          replace (k <? k0) with false by (symmetry; apply Z.ltb_ge; lia).
          destruct (Z.gtb_spec k k0) as [Hgt|Hle]; [by apply HR|].
          destruct (String.eqb_spec ks0 ks) as [->|Hne]; [|by apply HR].
          exfalso. apply Hks0.
          apply (cell_keystr _ _ (subtree_cell _ _ _ _ _ _ _ Hin)). }
    injection Heq as -> -> -> -> -> ->.
    rewrite Z.ltb_irrefl.
    replace (k0 >? k0) with false by (symmetry; rewrite Z.gtb_ltb; apply Z.ltb_irrefl).
    rewrite String.eqb_refl.
    destruct tl as [|la lk lks lvs ll lr].
    { exists (mkCell b k0 ks0 vs0). cbn [is_null orb c_addr].
      split; [rewrite cells_Node; list_in|]. split; [done|]. split; [done|].
      apply Forall_forall. intros c'' Hc''. left. rewrite cells_Node. list_in. }
    destruct tr as [|ra rk rks rvs rl rr].
    { exists (mkCell b k0 ks0 vs0). cbn [is_null orb c_addr].
      split; [rewrite cells_Node; list_in|]. split; [done|]. split; [done|].
      apply Forall_forall. intros c'' Hc''. left. rewrite cells_Node. list_in. }
    cbn [is_null orb].
    destruct (minValueNode_in ra rk rks rvs rl rr)
      as (ta & tk & tks & tvs & ttr & Hm & Hmin).
    cbv beta iota.
    remember (Node ra rk rks rvs rl rr) as R eqn:ER.
    rewrite Hm. cbn [self_addr].
    destruct (IHr _ _ _ _ _ _ Hbr Hndr Hmin) as (c1 & Hc1 & Ha1 & Hd1 & Hall1).
    cbn [is_null orb] in Ha1, Hall1. injection Ha1 as Ha1.
    exists (mkCell ta tk tks tvs). cbn [c_addr].
    split.
    { rewrite cells_Node. apply subtree_cell in Hmin. list_in. }
    split; [done|]. split; [by rewrite Hd1, Ha1|].
    rewrite !(cells_Node b). apply Forall_app. split; [|constructor].
    + apply Forall_forall. intros c'' Hc''. left. list_in.
    + right. done.
    + eapply Forall_impl; [exact Hall1|]. cbn.
      intros c'' [?|(? & _)]; [left; list_in|done].
Qed.

(** X16.  In every state reached by inserts and removes, [remove(k)] of
    a contained key takes exactly one position out of [Q]: the position
    of the node holding [k] when that node has at most one child, the
    position of its in-order successor when it has two.  In the second
    case the position of the node holding [k] stays and from then on
    shows the successor's pair; every other position shows what it
    showed before. *)
Theorem remove_positions (ops : list op) (n : nat) (k : string) :
  let d := run ops (Dictionary_new n) in
  let d' := exec (remove k) d in
  match search_node (crc k) (iRoot d) k with
  | NULL => d' = d
  | Node a _ _ _ l r =>
      exists a',
        Some a' =
          (if is_null l || is_null r then Some a else self_addr (minValueNode r)) /\
        NodeArray.items (Q d') =
          NodeArray.remove_first a' (NodeArray.items (Q d)) /\
        positions d' =
          (fun x => if Nat.eqb x a then entry_at d a' else entry_at d x)
            <$> NodeArray.items (Q d')
  end.
Proof.
  intros d d'.
  assert (wf d) as Hwf by apply wf_run.
  assert (wf d') as Hwf' by (by apply wf_remove).
  pose proof (lookup_remove_same d k Hwf) as Hgone. fold d' in Hgone.
  pose proof (remove_exec k d) as Hex. fold d' in Hex.
  destruct (search_node (crc k) (iRoot d) k) as [|a k' ks' v' l r] eqn:E; [done|].
  apply search_node_found in E as (-> & -> & Hcell & Hsub).
  pose proof Hwf as [[Hb Hh Hk Ha] HQ Hn].
  destruct (del_tree_cells _ _ _ _ _ _ _ Hb Hk Hsub) as (c' & Hc' & Ha' & Hd & Hall).
  rewrite Hd in Hex. cbn [released_opt] in Hex.
  exists (c_addr c'). split; [done|]. split; [by rewrite Hex|].
  unfold positions. apply Forall_fmap_ext_1, Forall_forall. intros x Hx.
  assert (exists c'', c'' ∈ cells (iRoot d') /\ c_addr c'' = x) as (c'' & Hc'' & <-).
  { destruct Hwf' as [_ HQ' _]. rewrite HQ' in Hx.
    apply list_elem_of_fmap in Hx as (c'' & -> & Hc''). eauto. }
  rewrite (entry_at_addr d' c'' Hwf' Hc'').
  assert (k ∉ keystrs (iRoot d')) as Hk'.
  { apply lookup_absent; [by destruct Hwf'|done]. }
  assert (cells (iRoot d') = cells (del_tree (iRoot d) (crc k) k)) as Hcells
    by (by rewrite Hex).
  rewrite Hcells in Hc''.
  destruct (proj1 (Forall_forall _ _) Hall _ Hc'') as [Hold|(_ & Haddr & Hcont)].
  - destruct (Nat.eqb_spec (c_addr c'') a) as [Heq|Hne].
    + exfalso. apply Hk'.
      assert (c'' = mkCell a (crc k) k v') as ->.
      { by apply (NoDup_fmap_eq c_addr (cells (iRoot d))). }
      rewrite <- Hcells in Hc''. apply (cell_keystr _ _ Hc'').
    + symmetry. by apply entry_at_addr.
  - rewrite Haddr, Nat.eqb_refl, (entry_at_addr d c' Hwf Hc').
    unfold entry_of. unfold content in Hcont. by injection Hcont as _ -> ->.
Qed.
